(** * A shallow embedding of [airbnb-scraper.js]

    The development follows the source file from top to bottom: the two
    record classes, the deduplicating batch writer [DataPipeline], the three
    scraping functions and the two windowed loops that drive them.

    Conventions of the embedding.
    - A JavaScript string is the sequence of its code units; the model keeps
      code units below 256 (type [string]).
    - A JavaScript value that the program inspects with [typeof] is a
      [jsval].
    - Everything outside the program (the browser, the file system, the
      logger) lives in a [World]: the files, an oracle deciding which sink
      writes throw, and the trace of observable calls.
    - A function that can throw is a computation in the monad [M]. The calls
      that can throw are those the program guards: [page.goto],
      [page.reload], the reading of a page, and the write to a file.
      Launching a browser, opening a page and closing either do not throw. *)

From stdpp Require Import base gmap strings list pretty.
From Stdlib Require Import Ascii ZArith Lia.

Local Open Scope string_scope.
Local Open Scope list_scope.
Local Open Scope nat_scope.
Local Open Scope stdpp_scope.

(** ** JavaScript values and strings *)

Inductive jsval : Type :=
  | JUndefined
  | JString (s : string)
  | JNumber (n : Z).

#[global] Instance jsval_eq_dec : EqDecision jsval.
Proof. solve_decision. Defined.

Definition jsval_encode (v : jsval) : unit + (string + Z) :=
  match v with
  | JUndefined => inl tt
  | JString s => inr (inl s)
  | JNumber n => inr (inr n)
  end.

Definition jsval_decode (x : unit + (string + Z)) : jsval :=
  match x with
  | inl _ => JUndefined
  | inr (inl s) => JString s
  | inr (inr n) => JNumber n
  end.

#[global] Instance jsval_countable : Countable jsval.
Proof.
  apply (inj_countable' jsval_encode jsval_decode).
  intros [ | s | n]; reflexivity.
Defined.

(** [String(v)], as a template literal interpolates a value. *)
Definition to_string (v : jsval) : string :=
  match v with
  | JUndefined => "undefined"
  | JString s => s
  | JNumber n => pretty n
  end.

(** WhiteSpace and LineTerminator code units below 256: TAB, LF, VT, FF, CR,
    SP and NBSP. These are the code units [String.prototype.trim] strips and
    the regular expression class [\s] matches. *)
Definition isWhiteSpace (a : ascii) : bool :=
  let n := nat_of_ascii a in
  Nat.eqb n 9 || Nat.eqb n 10 || Nat.eqb n 11 || Nat.eqb n 12 || Nat.eqb n 13
  || Nat.eqb n 32 || Nat.eqb n 160.

Fixpoint trimStart (s : string) : string :=
  match s with
  | EmptyString => EmptyString
  | String a s' => if isWhiteSpace a then trimStart s' else s
  end.

Fixpoint trimEnd (s : string) : string :=
  match s with
  | EmptyString => EmptyString
  | String a s' =>
      match trimEnd s' with
      | EmptyString => if isWhiteSpace a then EmptyString else String a EmptyString
      | t => String a t
      end
  end.

(** [s.trim()] *)
Definition trim (s : string) : string := trimEnd (trimStart s).

(** [s || d] on strings: the empty string is the only falsy string. *)
Definition or_else (s d : string) : string :=
  if decide (s = "") then d else s.

(** A default parameter [x = d]: the default replaces [undefined] only. *)
Definition param_string (x : option string) (d : string) : string :=
  default d x.

Definition param (x : jsval) (d : jsval) : jsval :=
  match x with
  | JUndefined => d
  | _ => x
  end.

(** ** Record classes *)

Module SearchData.

Record t : Type := mk {
  name : string;
  description : string;
  dates : string;
  price : string;
  url : string
}.

(** The arguments come out of [page.evaluate]: each is a string or
    [undefined] ([None]). *)
Definition constructor (name description dates price url : option string) : t :=
  let name := param_string name "" in
  let description := param_string description "" in
  let dates := param_string dates "" in
  let price := param_string price "" in
  let url := param_string url "" in
  {| name := or_else (trim name) "No name";
     description := or_else (trim description) "No description";
     dates := or_else (trim dates) "No dates";
     price := or_else (trim price) "No price";
     url := or_else (trim url) "No url" |}.

Definition columns : list string :=
  ["name"; "description"; "dates"; "price"; "url"].

End SearchData.

Module ReviewData.

Record t : Type := mk {
  name : jsval;
  stars : jsval;
  review : jsval
}.

(** [this[field]] *)
Definition get (this : t) (field : string) : jsval :=
  if decide (field = "name") then name this
  else if decide (field = "stars") then stars this
  else if decide (field = "review") then review this
  else JUndefined.

(** [this[field] = v], for the three fields of the class. *)
Definition set (this : t) (field : string) (v : jsval) : t :=
  if decide (field = "name") then mk v (stars this) (review this)
  else if decide (field = "stars") then mk (name this) v (review this)
  else if decide (field = "review") then mk (name this) (stars this) v
  else this.

Definition checkStringFields (this : t) : t :=
  let fields := ["name"; "stars"; "review"] in
  foldl
    (fun this field =>
       match get this field with
       | JString s =>
           if decide (s = "") then set this field (JString ("No " +:+ field))
           else set this field (JString (trim s))
       | _ => this
       end)
    this fields.

Definition constructor (name stars review : jsval) : t :=
  let name := param name (JString "") in
  let stars := param stars (JNumber 0) in
  let review := param review (JString "") in
  checkStringFields {| name := name; stars := stars; review := review |}.

Definition columns : list string := ["name"; "stars"; "review"].

End ReviewData.

(** A record as a pipeline holds it: an instance of one of the two classes.
    [record_name] is the property [data.name] that [addData] reads. *)
Inductive record : Type :=
  | RSearch (d : SearchData.t)
  | RReview (d : ReviewData.t).

#[global] Instance SearchData_eq_dec : EqDecision SearchData.t.
Proof. solve_decision. Defined.

#[global] Instance ReviewData_eq_dec : EqDecision ReviewData.t.
Proof. solve_decision. Defined.

#[global] Instance record_eq_dec : EqDecision record.
Proof. solve_decision. Defined.

Definition record_name (r : record) : jsval :=
  match r with
  | RSearch d => JString (SearchData.name d)
  | RReview d => ReviewData.name d
  end.

Definition record_columns (r : record) : list string :=
  match r with
  | RSearch _ => SearchData.columns
  | RReview _ => ReviewData.columns
  end.

(** ** The world outside the program *)

Inductive level : Type := Info | Warn | Error.

(** The calls the program makes on its collaborators, in the order made.
    [Goto url] is [page.goto(getScrapeOpsUrl(url), ...)]: the gateway wraps
    the target, the event keeps the target. *)
Inductive event : Type :=
  | Log (l : level) (message : string)
  | ConsoleError (message : string)
  | ConsoleLog (message : string)
  | Launch
  | CloseBrowser
  | NewPage
  | ClosePage
  | Goto (url : string)
  | Reload (url : string).

#[global] Instance level_eq_dec : EqDecision level.
Proof. solve_decision. Defined.

#[global] Instance event_eq_dec : EqDecision event.
Proof. solve_decision. Defined.

(** A line of a delimited file: the header (the field names) or the data
    line of one record. *)
Inductive csv_line : Type :=
  | Header (fields : list string)
  | Row (r : record).

#[global] Instance csv_line_eq_dec : EqDecision csv_line.
Proof. solve_decision. Defined.

(** [faults] is the oracle of the sink: each serialize-and-append consumes
    its head, and throws when the head is [true]; an exhausted oracle means
    no further failure. *)
Record World : Type := mkWorld {
  files : gmap string (list csv_line);
  faults : list bool;
  trace : list event
}.

Inductive result (A : Type) : Type :=
  | Ok (a : A)
  | Throw (error : string).
Arguments Ok {A} a.
Arguments Throw {A} error.

Definition is_ok {A} (r : result A) : bool :=
  match r with Ok _ => true | Throw _ => false end.

(** ** Computations that read and write a state and may throw *)

Definition M (St A : Type) : Type := St -> result A * St.

Definition ret {St A} (a : A) : M St A := fun s => (Ok a, s).

Definition throw {St A} (error : string) : M St A := fun s => (Throw error, s).

Definition bind {St A B} (m : M St A) (k : A -> M St B) : M St B :=
  fun s =>
    match m s with
    | (Ok a, s') => k a s'
    | (Throw e, s') => (Throw e, s')
    end.

(** [try { m } catch (error) { ... }]: the outcome of [m] as a value. *)
Definition try {St A} (m : M St A) : M St (result A) :=
  fun s => let '(r, s') := m s in (Ok r, s').

Definition get_state {St} : M St St := fun s => (Ok s, s).

Definition modify {St} (f : St -> St) : M St unit := fun s => (Ok tt, f s).

Notation "'do' x <- m ;; k" := (bind m (fun x => k))
  (at level 10, x name, m at level 99, k at level 200).
Notation "'do' ' p <- m ;; k" := (bind m (fun p => k))
  (at level 10, p pattern, m at level 99, k at level 200).
Notation "m ;;; k" := (bind m (fun _ => k))
  (at level 100, k at level 200, right associativity).

(** [for (const x of xs) await f(x)]: stops at the first throw. *)
Fixpoint for_of {St A} (xs : list A) (f : A -> M St unit) : M St unit :=
  match xs with
  | [] => ret tt
  | x :: xs' => f x ;;; for_of xs' f
  end.

(** A computation on the world, run from a state that holds more. *)
Definition in_world {St A} (m : M World A) : M (St * World) A :=
  fun '(s, w) => let '(r, w') := m w in (r, (s, w')).

Definition emit (e : event) : M World unit :=
  modify (fun w => mkWorld (files w) (faults w) (trace w ++ [e])).

(** [fs.existsSync(filePath)] *)
Definition existsSync (filePath : string) (w : World) : bool :=
  bool_decide (is_Some (files w !! filePath)).

(** [parse(data, { header })] of json2csv: an optional header line with the
    fields of the first record, then one line per record. *)
Definition parse (data : list record) (header : bool) : list csv_line :=
  (if header then
     match data with
     | r :: _ => [Header (record_columns r)]
     | [] => []
     end
   else [])
  ++ map Row data.

(** The content of a file, empty when the file does not exist. *)
Definition content (filePath : string) (w : World) : list csv_line :=
  default [] (files w !! filePath).

(** [fs.appendFileSync(filePath, csvData + '\n', 'utf8')]. The oracle
    decides whether the write throws; a write that throws leaves the files
    as they were. The oracle also stands for a throw of [parse], which has
    no effect of its own. *)
Definition appendFileSync (filePath : string) (csvData : list csv_line)
  : M World unit :=
  fun w =>
    match faults w with
    | true :: rest => (Throw "write failed", mkWorld (files w) rest (trace w))
    | _ =>
        (Ok tt,
         mkWorld (<[filePath := content filePath w ++ csvData]> (files w))
                 (tail (faults w)) (trace w))
    end.

(** ** DataPipeline *)

Module DataPipeline.

Record t : Type := mk {
  namesSeen : gset jsval;
  storageQueue : list record;
  storageQueueLimit : nat;
  csvFilename : string
}.

Definition constructor (csvFilename : string) (storageQueueLimit : option nat) : t :=
  {| namesSeen := ∅;
     storageQueue := [];
     storageQueueLimit := default 50 storageQueueLimit;
     csvFilename := csvFilename |}.

Definition saveToCsv : M (t * World) unit :=
  fun '(this, w) =>
    let filePath := csvFilename this in
    (* splice(0, length) empties the queue and returns what it held *)
    let dataToSave := storageQueue this in
    let this := mk (namesSeen this) [] (storageQueueLimit this) (csvFilename this) in
    if Nat.eqb (length dataToSave) 0 then (Ok tt, (this, w))
    else
      let csvData := parse dataToSave (negb (existsSync filePath w)) in
      in_world (appendFileSync filePath csvData) (this, w).

Definition isDuplicate (name : jsval) : M (t * World) bool :=
  fun '(this, w) =>
    if decide (name ∈ namesSeen this) then
      in_world
        (emit (Log Warn ("Duplicate item found: " +:+ to_string name +:+ ". Item dropped.")) ;;;
         ret true)
        (this, w)
    else
      (Ok false,
       (mk ({[name]} ∪ namesSeen this) (storageQueue this)
           (storageQueueLimit this) (csvFilename this), w)).

(** [this.storageQueue.push(data)] *)
Definition push (data : record) : M (t * World) unit :=
  modify (fun '(this, w) =>
    (mk (namesSeen this) (storageQueue this ++ [data])
        (storageQueueLimit this) (csvFilename this), w)).

Definition addData (data : record) : M (t * World) unit :=
  do dup <- isDuplicate (record_name data) ;;
  if negb dup then
    push data ;;;
    do '(this, _) <- get_state ;;
    if Nat.leb (storageQueueLimit this) (length (storageQueue this))
    then saveToCsv
    else ret tt
  else ret tt.

Definition closePipeline : M (t * World) unit :=
  do '(this, _) <- get_state ;;
  if Nat.ltb 0 (length (storageQueue this)) then saveToCsv else ret tt.

End DataPipeline.

Arguments DataPipeline.saveToCsv : simpl never.
Arguments DataPipeline.addData : simpl never.
Arguments DataPipeline.closePipeline : simpl never.

(** ** Constants of the program *)

Definition MAX_RETRIES : nat := 2.
Definition MAX_SEARCH_DATA_THREADS : nat := 2.
Definition MAX_REVIEW_DATA_THREADS : nat := 5.
Definition PAGES : Z := 4.

(** ** String and array helpers of the scraping functions *)

(** [s.replace(/, /g, rep)] *)
Fixpoint replace_comma_space (rep : string) (s : string) : string :=
  match s with
  | EmptyString => EmptyString
  | String a rest =>
      match rest with
      | String b rest' =>
          if decide (a = ","%char /\ b = " "%char)
          then rep +:+ replace_comma_space rep rest'
          else String a (replace_comma_space rep rest)
      | EmptyString => String a EmptyString
      end
  end.

(** [s.replace(/c/g, rep)] for a single character [c] *)
Fixpoint replace_char (c : ascii) (rep : string) (s : string) : string :=
  match s with
  | EmptyString => EmptyString
  | String a rest =>
      if decide (a = c) then rep +:+ replace_char c rep rest
      else String a (replace_char c rep rest)
  end.

(** [s.replace(/\s+/g, rep)]: [in_run] tells that the previous code unit was
    white space, so that a whole run is replaced once. *)
Fixpoint replace_spaces (rep : string) (in_run : bool) (s : string) : string :=
  match s with
  | EmptyString => EmptyString
  | String a rest =>
      if isWhiteSpace a then
        if in_run then replace_spaces rep true rest
        else rep +:+ replace_spaces rep true rest
      else String a (replace_spaces rep false rest)
  end.

(** [l.slice(0, end)]: a negative [end] counts from the end of the array. *)
Definition slice_to {A} (l : list A) (stop : Z) : list A :=
  if (stop <? 0)%Z
  then take (Z.to_nat (Z.max 0 (Z.of_nat (length l) + stop))) l
  else take (Z.to_nat stop) l.

Definition raise_if {St} (error : option string) : M St unit :=
  match error with
  | Some e => throw e
  | None => ret tt
  end.

Definition of_result {St A} (r : result A) : M St A := fun s => (r, s).

(** ** findPaginationUrls *)

(** What the first results page of a term answers: the error [page.goto]
    throws, if any, and the outcome of [page.$$eval] on the pagination
    anchors. *)
Record DiscoverEnv : Type := mkDiscoverEnv {
  discover_goto : option string;
  discover_links : result (list string)
}.

Definition search_url (keyword : string) : string :=
  let formattedKeyword := replace_char " " "-" (replace_comma_space "--" keyword) in
  "https://www.airbnb.com/s/" +:+ formattedKeyword +:+ "/homes".

Definition findPaginationUrls (env : DiscoverEnv) (keyword : string)
    (pages : option Z) : M World (list string) :=
  let pages := default PAGES pages in
  emit Launch ;;;
  emit NewPage ;;;
  let url := search_url keyword in
  let links := [url] in
  do r <- try (emit (Goto url) ;;;
               raise_if (discover_goto env) ;;;
               do paginationLinks <- of_result (discover_links env) ;;
               ret (links ++ slice_to paginationLinks (pages - 1))) ;;
  do links <- match r with
              | Ok links' => ret links'
              | Throw error =>
                  emit (Log Error ("Error fetching pagination URLs: " +:+ error)) ;;;
                  ret links
              end ;;
  emit CloseBrowser ;;;
  emit (Log Info "Pagination Links Collected") ;;;
  ret links.

(** ** scrapeSearchResults *)

(** The fields of a listing card as [page.evaluate] returns them: a missing
    element gives [undefined]. *)
Record card : Type := mkCard {
  card_name : option string;
  card_description : option string;
  card_dates : option string;
  card_price : option string;
  card_url : option string
}.

(** What a results page answers at each attempt, numbered by [tries]: the
    error of [page.goto], the outcome of [page.evaluate], and the error of
    the [page.reload] that follows a failed attempt. *)
Record PageEnv : Type := mkPageEnv {
  goto_error : nat -> option string;
  evaluate_result : nat -> result (list card);
  reload_error : nat -> option string
}.

Definition card_record (item : card) : record :=
  RSearch (SearchData.constructor (card_name item) (card_description item)
             (card_dates item) (card_price item) (card_url item)).

(** The body of the [try] block: one fetch-and-extract attempt. *)
Definition scrape_attempt (env : PageEnv) (url : string) (tries : nat)
  : M (DataPipeline.t * World) unit :=
  in_world (emit (Goto url)) ;;;
  raise_if (goto_error env tries) ;;;
  do dataItems <- of_result (evaluate_result env tries) ;;
  for_of dataItems (fun item => DataPipeline.addData (card_record item)) ;;;
  in_world (emit (Log Info ("Successfully scraped data from " +:+ url))).

(** [while (tries <= retries && !success)]. [left] is the variant
    [retries + 1 - tries] of the loop: the guard [tries <= retries] holds
    exactly when [left] is positive. The result is the final value of
    [success]. *)
Fixpoint scrape_while (env : PageEnv) (url : string) (left tries : nat)
  : M (DataPipeline.t * World) bool :=
  match left with
  | 0 => ret false
  | S left' =>
      do r <- try (scrape_attempt env url tries) ;;
      match r with
      | Ok _ => ret true
      | Throw error =>
          in_world (emit (Log Error ("Error scraping data from " +:+ url +:+ ": " +:+ error))) ;;;
          in_world (emit (Reload url)) ;;;
          raise_if (reload_error env tries) ;;;
          scrape_while env url left' (tries + 1)
      end
  end.

Definition scrapeSearchResults (env : PageEnv) (url : string) (retries : nat)
  : M (DataPipeline.t * World) unit :=
  in_world (emit NewPage) ;;;
  do success <- scrape_while env url (S retries) 0 ;;
  in_world (emit ClosePage) ;;;
  if success then ret tt
  else throw ("Failed to scrape " +:+ url +:+ " after " +:+ pretty retries +:+ " retries").

(** ** processListing *)

(** A review card of a listing page: reading it throws, or it gives the
    text of its [h3] (if any), the computed fill of each [svg], and the text
    of its last [span] (if any). *)
Inductive review_card : Type :=
  | CardThrows (error : string)
  | Card (nameElement : option string) (stars : list string)
         (reviewElement : option string).

Record ListingEnv : Type := mkListingEnv {
  listing_goto_error : nat -> option string;
  listing_cards : nat -> result (list review_card)
}.

(** [row.name.replace(/\s+/g, '-').replace(/\//g, '-') + ".csv"] *)
Definition review_filename (row : SearchData.t) : string :=
  replace_char "/" "-" (replace_spaces "-" false (SearchData.name row)) +:+ ".csv".

Definition read_review {St} (reviewCard : review_card) : M St ReviewData.t :=
  match reviewCard with
  | CardThrows error => throw error
  | Card nameElement stars reviewElement =>
      let name := default "Unknown" nameElement in
      let filledStars :=
        length (filter (fun color => color = "rgb(34, 34, 34)") stars) in
      let review := default "No review" reviewElement in
      ret (ReviewData.constructor (JString name)
             (JNumber (Z.of_nat filledStars)) (JString review))
  end.

(** The [for] loop over the review cards and the [closePipeline] after it,
    run on the attempt's own pipeline. *)
Definition save_reviews (reviewCards : list review_card)
  : M (DataPipeline.t * World) unit :=
  for_of reviewCards (fun reviewCard =>
    do reviewData <- read_review reviewCard ;;
    DataPipeline.addData (RReview reviewData)) ;;;
  DataPipeline.closePipeline.

(** A computation on a pipeline that no one else holds: the pipeline is
    dropped when the computation ends, whatever its outcome. *)
Definition with_pipeline {A} (p : DataPipeline.t) (m : M (DataPipeline.t * World) A)
  : M World A :=
  fun w => let '(r, (_, w')) := m (p, w) in (r, w').

(** The body of the [try] block. *)
Definition listing_attempt (env : ListingEnv) (row : SearchData.t) (tries : nat)
  : M World unit :=
  let url := SearchData.url row in
  emit (Log Info ("Attempting to navigate to " +:+ url +:+ " (Attempt "
                  +:+ pretty (tries + 1) +:+ ")")) ;;;
  emit (Goto url) ;;;
  raise_if (listing_goto_error env tries) ;;;
  do reviewCards <- of_result (listing_cards env tries) ;;
  let reviewPipeline := DataPipeline.constructor (review_filename row) None in
  with_pipeline reviewPipeline (save_reviews reviewCards).

(** [while (tries < retries && !success)], with the variant
    [left = retries - tries]. *)
Fixpoint listing_while (env : ListingEnv) (row : SearchData.t) (retries : nat)
    (left tries : nat) : M World unit :=
  match left with
  | 0 => ret tt
  | S left' =>
      do r <- try (listing_attempt env row tries) ;;
      match r with
      | Ok _ => ret tt
      | Throw error =>
          emit (ConsoleError ("Error processing URL: " +:+ SearchData.url row
                              +:+ ". Attempt " +:+ pretty (tries + 1)
                              +:+ " failed. Error: " +:+ error)) ;;;
          let tries := tries + 1 in
          if Nat.leb retries tries then
            emit (Log Error ("Max Retries exceeded for " +:+ SearchData.url row +:+ "."))
          else listing_while env row retries left' tries
      end
  end.

Definition processListing (env : ListingEnv) (row : SearchData.t)
    (retries : option nat) : M World unit :=
  let retries := default 3 retries in
  emit NewPage ;;;
  listing_while env row retries retries 0 ;;;
  emit ClosePage.

(** ** The windowed loops

    Both crawls run the same loop (lines 266-277 and 234-245):
<<
    for (let i = 0; i < items.length; i += LIMIT) {
        try {
            const promises = [];
            for (let j = 0; j < LIMIT && (i + j) < items.length; j++)
                promises.push(task(items[i + j]));
            await Promise.all(promises);
        } catch (error) { console.error(...); }
    }
>>
    Calling an async function starts it; the promise it returns settles
    later. The model is a transition system whose scheduler chooses, at each
    step, between starting the next window, letting one started call run to
    its settlement, and resuming the loop after its [await]. A call runs as
    one step: the model orders the starts and the settlements of the calls,
    not the statements inside two calls. *)

(** A schedule is the list of the scheduler's choices; a choice that is not
    enabled in the state it meets ends the run with [None]. *)
Fixpoint run_schedule {St C : Type} (step : C -> St -> option St) (cs : list C)
    (s : St) : option St :=
  match cs with
  | [] => Some s
  | c :: cs' =>
      match step c s with
      | Some s' => run_schedule step cs' s'
      | None => None
      end
  end.

Module Window.

Inductive status : Type :=
  | NotStarted
  | Pending
  | Fulfilled
  | Rejected.

#[global] Instance status_eq_dec : EqDecision status.
Proof. solve_decision. Defined.

(** The control state of the loop: the loop variable [i], whether the loop
    is suspended at [await Promise.all(promises)], the reason with which
    that [Promise.all] has rejected (if it has), and the status of the call
    made for each item. *)
Record t : Type := mk {
  i : nat;
  awaiting : bool;
  rejection : option string;
  tasks : list status
}.

Definition init (n : nat) : t := mk 0 false None (replicate n NotStarted).

Inductive choice : Type :=
  | Spawn
  | Settle (k : nat)
  | Resume.

Section Loop.
Context {T St : Type}.
Variable task : T -> M St unit.
Variable limit : nat.
Variable on_catch : string -> M St unit.
Variable items : list T.

(** The inner [for] loop: the calls for [items[i + j]], [j < limit],
    [i + j < items.length], are started. *)
Definition start (l : t) : list status :=
  foldl (fun ts j => <[i l + j := Pending]> ts) (tasks l) (seq 0 limit).

(** The promises of the window the loop is at. *)
Definition window (l : t) : list status := take limit (drop (i l) (tasks l)).

Definition in_window (l : t) (k : nat) : bool :=
  Nat.leb (i l) k && Nat.ltb k (i l + limit).

(** [Promise.all] fulfils once every promise of the window has. *)
Definition all_fulfilled (l : t) : bool :=
  forallb (fun s => bool_decide (s = Fulfilled)) (window l).

Definition step (c : choice) (s : t * St) : option (t * St) :=
  let '(l, st) := s in
  match c with
  | Spawn =>
      if negb (awaiting l) && Nat.ltb (i l) (length items)
      then Some (mk (i l) true None (start l), st)
      else None
  | Settle k =>
      match items !! k, tasks l !! k with
      | Some item, Some Pending =>
          match task item st with
          | (Ok _, st') =>
              Some (mk (i l) (awaiting l) (rejection l)
                      (<[k := Fulfilled]> (tasks l)), st')
          | (Throw error, st') =>
              (* [Promise.all] rejects with the first rejection among
                 its own promises *)
              let rejection' :=
                match rejection l with
                | Some e => Some e
                | None => if in_window l k then Some error else None
                end in
              Some (mk (i l) (awaiting l) rejection'
                      (<[k := Rejected]> (tasks l)), st')
          end
      | _, _ => None
      end
  | Resume =>
      if awaiting l then
        match rejection l with
        | Some error =>
            let '(_, st') := on_catch error st in
            Some (mk (i l + limit) false None (tasks l), st')
        | None =>
            if all_fulfilled l
            then Some (mk (i l + limit) false None (tasks l), st)
            else None
        end
      else None
  end.

(** The loop has left its last iteration. *)
Definition finished (l : t) : bool :=
  negb (awaiting l) && Nat.leb (length items) (i l).

End Loop.

(** The call for item [k] has been made. *)
Definition started (l : t) (k : nat) : Prop :=
  exists s, tasks l !! k = Some s /\ s <> NotStarted.

(** The promise of item [j] has settled. *)
Definition settled (l : t) (j : nat) : Prop :=
  tasks l !! j = Some Fulfilled \/ tasks l !! j = Some Rejected.

(** Strict sequencing of consecutive windows: a call of window [N + 1] is
    started only when every promise of window [N] has settled. *)
Definition sequenced (limit : nat) (n : nat) (l : t) : Prop :=
  forall j k, j < n -> k < n -> j / limit + 1 = k / limit ->
    started l k -> settled l j.

End Window.

(** The loop of the search crawl over the page URLs of one term. *)
Definition search_window (env : string -> PageEnv) (pageUrls : list string)
  : Window.choice -> Window.t * (DataPipeline.t * World)
    -> option (Window.t * (DataPipeline.t * World)) :=
  Window.step
    (fun url => scrapeSearchResults (env url) url MAX_RETRIES)
    MAX_SEARCH_DATA_THREADS
    (fun error => in_world (emit (ConsoleError ("Error scraping search results: " +:+ error))))
    pageUrls.

(** The loop of the detail crawl over the rows of one file. *)
Definition review_window (env : string -> ListingEnv) (retries : option nat)
    (reader : list SearchData.t)
  : Window.choice -> Window.t * World -> option (Window.t * World) :=
  Window.step
    (fun row => processListing (env (SearchData.url row)) row retries)
    MAX_REVIEW_DATA_THREADS
    (fun error => emit (ConsoleError ("Error processing row: " +:+ error)))
    reader.

(** ** processResults and the file loop of the main function

    [processResults] launches a browser, attaches its handlers to the read
    stream of the file and returns: the rows are read, and the windowed loop
    runs, in the handler of the stream's [end] event. The main function runs
<<
    for (let file of aggregateFiles) {
        try { await processResults(file, MAX_RETRIES); } catch (error) { ... }
    }
>>      *)

(** The rows [csv-parser] gives for a file the search crawl wrote. *)
Definition readCsv (lines : list csv_line) : list SearchData.t :=
  omap (fun line => match line with
                    | Row (RSearch d) => Some d
                    | _ => None
                    end) lines.

Module Details.

(** Where the crawl of one file is: its stream is being read, its loop
    runs over the rows read, it has closed its browser, or its stream has
    failed. *)
Inductive phase : Type :=
  | Reading
  | Looping (reader : list SearchData.t) (l : Window.t)
  | Complete
  | ReadError.

(** One entry per call of [processResults] made so far, in the order of
    [aggregateFiles]; the file loop of the main function is at the index
    [length] of this list. *)
Definition t : Type := list phase.

Inductive choice : Type :=
  | Call
  | StreamEnd (k : nat)
  | InLoop (k : nat) (c : Window.choice)
  | Finish (k : nat).

Section Files.
Variable env : string -> ListingEnv.
Variable retries : option nat.
Variable aggregateFiles : list string.

Definition step (c : choice) (s : t * World) : option (t * World) :=
  let '(crawls, w) := s in
  match c with
  | Call =>
      (* the main loop calls processResults(file) and awaits its return *)
      match aggregateFiles !! length crawls with
      | Some file =>
          let '(_, w') :=
            (emit (Log Info ("Processing " +:+ file)) ;;; emit Launch) w in
          Some (crawls ++ [Reading], w')
      | None => None
      end
  | StreamEnd k =>
      match crawls !! k, aggregateFiles !! k with
      | Some Reading, Some file =>
          match files w !! file with
          | Some lines =>
              let reader := readCsv lines in
              Some (<[k := Looping reader (Window.init (length reader))]> crawls, w)
          | None =>
              let '(_, w') :=
                emit (ConsoleError ("Error reading file: " +:+ file)) w in
              Some (<[k := ReadError]> crawls, w')
          end
      | _, _ => None
      end
  | InLoop k c =>
      match crawls !! k with
      | Some (Looping reader l) =>
          match review_window env retries reader c (l, w) with
          | Some (l', w') => Some (<[k := Looping reader l']> crawls, w')
          | None => None
          end
      | _ => None
      end
  | Finish k =>
      match crawls !! k with
      | Some (Looping reader l) =>
          if Window.finished reader l then
            let '(_, w') :=
              (emit CloseBrowser ;;; emit (ConsoleLog "Processing complete.")) w in
            Some (<[k := Complete]> crawls, w')
          else None
      | _ => None
      end
  end.

End Files.

(** Strict sequencing of the files: the crawl of file [k + 1] is started
    only when the crawl of file [k] has run to its end. *)
Definition sequenced (crawls : t) : Prop :=
  forall k, k + 1 < length crawls -> crawls !! k = Some Complete.

End Details.

(** ** Vocabulary of the statements *)

(** The natural keys of the data lines of a file. *)
Definition line_names (lines : list csv_line) : list jsval :=
  omap (fun line => match line with
                    | Row r => Some (record_name r)
                    | Header _ => None
                    end) lines.

(** The sink accepts its next write. *)
Definition next_write_ok (w : World) : Prop := head (faults w) <> Some true.

(** A string with white space at neither end. *)
Definition trimmed (s : string) : Prop := trim s = s.

(** What the specification asks of a failed flush, at one pipeline and one
    world: the seen-set is kept, and every record of the batch is still in
    the batch or has been appended to the sink. *)
Definition flush_keeps_records (p : DataPipeline.t) (w : World) : Prop :=
  forall error p' w',
    DataPipeline.saveToCsv (p, w) = (Throw error, (p', w')) ->
    DataPipeline.namesSeen p' = DataPipeline.namesSeen p /\
    forall d, d ∈ DataPipeline.storageQueue p ->
      d ∈ DataPipeline.storageQueue p' \/
      Row d ∈ content (DataPipeline.csvFilename p) w'.

(** The calls a client makes on a pipeline. A client that catches a throw
    goes on with the same pipeline, so a sequence of calls is run to its end
    whatever each call returns. *)
Inductive call : Type :=
  | Add (data : record)
  | Close.

Definition perform (c : call) : M (DataPipeline.t * World) unit :=
  match c with
  | Add data => DataPipeline.addData data
  | Close => DataPipeline.closePipeline
  end.

Fixpoint perform_all (cs : list call) (s : DataPipeline.t * World)
  : DataPipeline.t * World :=
  match cs with
  | [] => s
  | c :: cs' => perform_all cs' (snd (perform c s))
  end.

(** The invariant of a pipeline writing to the file [f], which held [base]
    when the pipeline was made: the file is [base] followed by what the
    pipeline has appended, the keys appended or held in the batch are
    pairwise distinct, and each of them is in the seen-set. *)
Definition pipeline_inv (f : string) (base : list csv_line) (p : DataPipeline.t)
    (w : World) : Prop :=
  DataPipeline.csvFilename p = f /\
  exists new,
    content f w = base ++ new /\
    NoDup (line_names new ++ map record_name (DataPipeline.storageQueue p)) /\
    forall k, k ∈ line_names new ++ map record_name (DataPipeline.storageQueue p) ->
              k ∈ DataPipeline.namesSeen p.

(** The pipeline with its batch taken out. *)
Definition emptied (p : DataPipeline.t) : DataPipeline.t :=
  DataPipeline.mk (DataPipeline.namesSeen p) [] (DataPipeline.storageQueueLimit p)
    (DataPipeline.csvFilename p).

(** The pipeline after it has accepted a record. *)
Definition accepted (data : record) (p : DataPipeline.t) : DataPipeline.t :=
  DataPipeline.mk ({[record_name data]} ∪ DataPipeline.namesSeen p)
    (DataPipeline.storageQueue p ++ [data]) (DataPipeline.storageQueueLimit p)
    (DataPipeline.csvFilename p).

(** The world after one more event. *)
Definition logged (e : event) (w : World) : World :=
  mkWorld (files w) (faults w) (trace w ++ [e]).

(** The line logged for a row whose attempts are all spent. *)
Definition max_retries_log (url : string) : event :=
  Log Error ("Max Retries exceeded for " +:+ url +:+ ".").

Definition is_throw (reviewCard : review_card) : bool :=
  match reviewCard with
  | CardThrows _ => true
  | Card _ _ _ => false
  end.


(** The reviews an attempt gives to [addData] before the first card that
    throws. *)
Fixpoint reviews_before_throw (reviewCards : list review_card) : list record :=
  match reviewCards with
  | [] => []
  | reviewCard :: rest =>
      match read_review reviewCard tt with
      | (Ok reviewData, _) => RReview reviewData :: reviews_before_throw rest
      | (Throw _, _) => []
      end
  end.


(** The calls already made reach up to the loop variable, and up to the end
    of the window while the loop awaits it. *)
Definition frontier (limit : nat) (l : Window.t) : nat :=
  Window.i l + (if Window.awaiting l then limit else 0).

(** Invariant of every windowed loop over [n] items. *)
Definition started_below_frontier (limit n : nat) (l : Window.t) : Prop :=
  length (Window.tasks l) = n /\
  forall k s, Window.tasks l !! k = Some s -> k < frontier limit l ->
              s <> Window.NotStarted.


(** ** Sample inputs *)

Definition listing_A : record :=
  card_record (mkCard (Some "Condo A") (Some "Oceanfront") None (Some "$100") (Some "https://a")).

Definition listing_B : record :=
  card_record (mkCard (Some "Condo B") None None None (Some "https://b")).

(** A world with no file, a working sink and an empty trace. *)
Definition empty_world : World := mkWorld ∅ [] [].

(** A world whose sink refuses its next write. *)
Definition failing_world : World := mkWorld ∅ [true] [].

(** A pipeline holding one record. *)
Definition pipeline_with_A : DataPipeline.t :=
  DataPipeline.mk {[record_name listing_A]} [listing_A] 50 "out.csv".

(** A first results page with five pagination anchors. *)
Definition five_links : DiscoverEnv :=
  mkDiscoverEnv None (Ok ["p2"; "p3"; "p4"; "p5"; "p6"]).

(** A first results page that cannot be reached. *)
Definition unreachable : DiscoverEnv :=
  mkDiscoverEnv (Some "net::ERR_TIMED_OUT") (Ok []).

(** Counting the events of a trace. *)
Fixpoint count (f : event -> bool) (t : list event) : nat :=
  match t with
  | [] => 0
  | e :: t' => (if f e then 1 else 0) + count f t'
  end.

Definition is_goto (url : string) (e : event) : bool :=
  match e with
  | Goto u => bool_decide (u = url)
  | _ => false
  end.

Definition is_reload (url : string) (e : event) : bool :=
  match e with
  | Reload u => bool_decide (u = url)
  | _ => false
  end.

Definition is_error_log (e : event) : bool :=
  match e with
  | Log Error _ => true
  | _ => false
  end.

Definition is_warning (e : event) : bool :=
  match e with
  | Log Warn _ => true
  | _ => false
  end.

(** The line logged by the attempt that succeeds. *)
Definition success_log (url : string) : event :=
  Log Info ("Successfully scraped data from " +:+ url).

Definition is_success (url : string) (e : event) : bool :=
  match e with
  | Log Info message =>
      bool_decide (message = "Successfully scraped data from " +:+ url)
  | _ => false
  end.

(** The line logged by an attempt that fails. *)
Definition failure_log (url error : string) : event :=
  Log Error ("Error scraping data from " +:+ url +:+ ": " +:+ error).


(** The target fails at attempt [k]: [page.goto] or [page.evaluate] throws. *)
Definition fetch_fails (env : PageEnv) (k : nat) : bool :=
  match goto_error env k, evaluate_result env k with
  | None, Ok _ => false
  | _, _ => true
  end.

(** A results page that times out at every attempt. *)
Definition always_timeout : PageEnv :=
  mkPageEnv (fun _ => Some "timeout") (fun _ => Ok []) (fun _ => None).

(** A results page that times out twice and then shows two cards. *)
Definition third_time_lucky : PageEnv :=
  mkPageEnv (fun k => if Nat.ltb k 2 then Some "timeout" else None)
    (fun _ => Ok [mkCard (Some "Condo A") None None None None;
                  mkCard (Some "Condo B") None None None None])
    (fun _ => None).

(** A row of a search file. *)
Definition row_A : SearchData.t :=
  SearchData.constructor (Some "Condo A") (Some "Oceanfront") None (Some "$100")
    (Some "https://a").

Definition row_B : SearchData.t :=
  SearchData.constructor (Some "Condo B") None None None (Some "https://b").

Definition row_C : SearchData.t :=
  SearchData.constructor (Some "Condo C") None None None (Some "https://c").


(** A listing page with one review. *)
Definition one_review : ListingEnv :=
  mkListingEnv (fun _ => None)
    (fun _ => Ok [Card (Some "Bob") ["rgb(34, 34, 34)"] (Some "Fine")]).

(** Three results pages of a term: the first times out at every attempt,
    the others show one card each. *)
Definition three_pages : list string := ["page1"; "page2"; "page3"].

Definition first_page_down (url : string) : PageEnv :=
  if decide (url = "page1") then always_timeout
  else mkPageEnv (fun _ => None)
         (fun _ => Ok [mkCard (Some url) None None None None])
         (fun _ => None).

(** Two files written by the search crawl, one row each. *)
Definition two_files : World :=
  mkWorld
    (<["Term-One.csv" := [Header SearchData.columns; Row (RSearch row_A)]]>
       (<["Term-Two.csv" := [Header SearchData.columns; Row (RSearch row_B)]]> ∅))
    [] [].

(** ** Vocabulary of the further properties *)

(** The records of the data lines of a file. *)
Definition rows_of (lines : list csv_line) : list record :=
  omap (fun line => match line with
                    | Row r => Some r
                    | Header _ => None
                    end) lines.

(** The records [addData] accepts out of a list given in order: the first
    record of each key that is not yet in the seen-set. *)
Fixpoint accepted_of (seen : gset jsval) (ds : list record) : list record :=
  match ds with
  | [] => []
  | d :: ds' =>
      if decide (record_name d ∈ seen) then accepted_of seen ds'
      else d :: accepted_of ({[record_name d]} ∪ seen) ds'
  end.

(** The keys of the records given to [addData] by a sequence of calls. *)
Definition added_names (cs : list call) : list jsval :=
  omap (fun c => match c with
                 | Add data => Some (record_name data)
                 | Close => None
                 end) cs.

(** A sink that accepts every write. *)
Definition reliable (w : World) : Prop := forall b, b ∈ faults w -> b = false.

Definition nonempty {A} (l : list A) : bool :=
  match l with
  | [] => false
  | _ :: _ => true
  end.

(** The file [f] of a pipeline held [base] and existed or not ([existed])
    when the pipeline was made; the pipeline has flushed the records
    [flushed] since: the file is [base] followed by what one serialization of
    all of [flushed] gives, with a header exactly when the file did not
    exist. *)
Definition flushed_inv (f : string) (base : list csv_line) (existed : bool)
    (flushed : list record) (p : DataPipeline.t) (w : World) : Prop :=
  DataPipeline.csvFilename p = f /\
  content f w = base ++ parse flushed (negb existed) /\
  existsSync f w = existed || nonempty flushed.

(** Every code unit of a string satisfies [ok]. *)
Fixpoint all_chars (ok : ascii -> bool) (s : string) : bool :=
  match s with
  | EmptyString => true
  | String a rest => ok a && all_chars ok rest
  end.

(** A code unit that is neither white space nor a slash. *)
Definition plain_char (a : ascii) : bool :=
  negb (isWhiteSpace a) && negb (bool_decide (a = "/"%char)).

Definition not_space (a : ascii) : bool := negb (bool_decide (a = " "%char)).

Definition is_new_page (e : event) : bool :=
  match e with
  | NewPage => true
  | _ => false
  end.

Definition is_close_page (e : event) : bool :=
  match e with
  | ClosePage => true
  | _ => false
  end.

(** A listing page with three reviews: the second and the third have no
    [h3], so both are signed "Unknown". *)
Definition unsigned_reviews : ListingEnv :=
  mkListingEnv (fun _ => None)
    (fun _ => Ok [Card (Some "Ann") ["rgb(34, 34, 34)"] (Some "Lovely");
                  Card None ["rgb(34, 34, 34)"; "none"] (Some "Quiet");
                  Card None [] (Some "Noisy")]).


(** The steps a call still has to go through in the life of a loop: being
    started and settling. *)
Definition weight (s : Window.status) : nat :=
  match s with
  | Window.NotStarted => 3
  | Window.Pending => 1
  | Window.Fulfilled | Window.Rejected => 0
  end.

Fixpoint total_weight (ts : list Window.status) : nat :=
  match ts with
  | [] => 0
  | s :: ts' => weight s + total_weight ts'
  end.

(** A bound on the steps a loop can still take. *)
Definition potential (l : Window.t) : nat :=
  total_weight (Window.tasks l) + (if Window.awaiting l then 1 else 0).

(** Invariant of every windowed loop over [n] items: no call at or beyond
    the frontier is started and, while the loop awaits a window whose
    [Promise.all] has not rejected, every call of that window is pending or
    fulfilled. *)
Definition tidy (limit n : nat) (l : Window.t) : Prop :=
  length (Window.tasks l) = n /\
  (forall k s, Window.tasks l !! k = Some s -> frontier limit l <= k ->
               s = Window.NotStarted) /\
  (Window.awaiting l = true -> Window.rejection l = None ->
   forall k s, Window.tasks l !! k = Some s ->
               Window.i l <= k < Window.i l + limit ->
               s = Window.Pending \/ s = Window.Fulfilled).

(** The schedule that spawns a window and resumes, [m] times over. *)
Fixpoint spawn_resume (m : nat) : list Window.choice :=
  match m with
  | 0 => []
  | S m' => Window.Spawn :: Window.Resume :: spawn_resume m'
  end.


(** A world where the first term has left no file and the second a file with
    its header only. *)
Definition no_rows : World :=
  mkWorld (<["Term-Two.csv" := [Header SearchData.columns]]> ∅) [] [].

(** ** getScrapeOpsUrl

    [new URLSearchParams({ ... }).toString()] writes its pairs as
    [name=value], joined by [&], each name and value in the
    application/x-www-form-urlencoded serialization: the string is encoded
    in UTF-8; a space is written [+]; the bytes of the ASCII letters and
    digits and of [*], [-], [.] and [_] are kept; every other byte is
    written [%XX] with upper-case hexadecimal digits. *)

Definition LOCATION : string := "us".

Definition hex_digit (n : nat) : ascii :=
  match n with
  | 0 => "0" | 1 => "1" | 2 => "2" | 3 => "3" | 4 => "4" | 5 => "5" | 6 => "6"
  | 7 => "7" | 8 => "8" | 9 => "9" | 10 => "A" | 11 => "B" | 12 => "C"
  | 13 => "D" | 14 => "E" | _ => "F"
  end%char.

Definition percent_encode (byte : nat) : string :=
  String "%" (String (hex_digit (byte / 16)) (String (hex_digit (byte mod 16)) "")).

(** The bytes of the UTF-8 encoding of a code unit below 256: one byte below
    128, two bytes from 128 on. *)
Definition utf8 (a : ascii) : list nat :=
  let n := nat_of_ascii a in
  if Nat.ltb n 128 then [n] else [192 + n / 64; 128 + n mod 64].

Definition is_unreserved (a : ascii) : bool :=
  let n := nat_of_ascii a in
  (Nat.leb 48 n && Nat.leb n 57) || (Nat.leb 65 n && Nat.leb n 90)
  || (Nat.leb 97 n && Nat.leb n 122)
  || Nat.eqb n 42 || Nat.eqb n 45 || Nat.eqb n 46 || Nat.eqb n 95.

Definition urlencode_unit (a : ascii) : string :=
  if Nat.eqb (nat_of_ascii a) 32 then "+"
  else if is_unreserved a then String a ""
  else foldr (fun byte s => percent_encode byte +:+ s) "" (utf8 a).

Fixpoint urlencode (s : string) : string :=
  match s with
  | EmptyString => EmptyString
  | String a rest => urlencode_unit a +:+ urlencode rest
  end.

(** [params.toString()] *)
Fixpoint params_toString (params : list (string * string)) : string :=
  match params with
  | [] => ""
  | (name, value) :: rest =>
      urlencode name +:+ "=" +:+ urlencode value
      +:+ match rest with
          | [] => ""
          | _ :: _ => "&" +:+ params_toString rest
          end
  end.

(** [API_KEY] is the [api_key] of config.json. The parameter [location] has
    the default "us" and is not used: the country is the constant LOCATION.
    The number 5000 is written as a string by [URLSearchParams]. *)
Definition getScrapeOpsUrl (API_KEY : string) (url : string) (location : option string)
  : string :=
  let params := [("api_key", API_KEY); ("url", url); ("country", LOCATION);
                 ("wait", "5000")] in
  "https://proxy.scrapeops.io/v1/?" +:+ params_toString params.

(** ** The keyword loop of the main function

    One iteration of [for (const keyword of keywordList)], from the making
    of the pipeline of the term to the end of its [try] statement. The
    windowed loop over the page URLs runs under a schedule, which has to
    bring it to the end of its last iteration; [closePipeline] and
    [aggregateFiles.push(filename)] follow at once. Calls still pending then
    are not settled in the iteration. *)

Definition search_filename (keyword : string) : string :=
  replace_char " " "-" (replace_comma_space "-" keyword) +:+ ".csv".

Definition quoted (s : string) : string :=
  String (ascii_of_nat 34) s +:+ String (ascii_of_nat 34) "".

Definition keyword_iteration (denv : DiscoverEnv) (penv : string -> PageEnv)
    (keyword : string) (cs : list Window.choice) (s : list string * World)
  : option (list string * World) :=
  let '(aggregateFiles, w) := s in
  let filename := search_filename keyword in
  let dataPipeline := DataPipeline.constructor filename None in
  let on_error (error : string) (w : World) :=
    (aggregateFiles,
     (emit (Log Error ("Error processing keyword " +:+ quoted keyword +:+ ": " +:+ error))
        w).2) in
  match findPaginationUrls denv keyword None w with
  | (Throw error, w1) => Some (on_error error w1)
  | (Ok pageUrls, w1) =>
      match run_schedule (search_window penv pageUrls) cs
              (Window.init (length pageUrls), (dataPipeline, w1)) with
      | Some (l, s2) =>
          if Window.finished pageUrls l then
            match DataPipeline.closePipeline s2 with
            | (Ok _, (_, w3)) => Some (aggregateFiles ++ [filename], w3)
            | (Throw error, (_, w3)) => Some (on_error error w3)
            end
          else None
      | None => None
      end
  end.

(** ** Vocabulary of the properties of the proxy URL and of the keyword loop *)

(** The number of occurrences of a code unit in a string. *)
Fixpoint count_char (c : ascii) (s : string) : nat :=
  match s with
  | EmptyString => 0
  | String a rest => (if decide (a = c) then 1 else 0) + count_char c rest
  end.

(** The code units a serialized name or value is made of. *)
Definition query_safe (a : ascii) : bool :=
  is_unreserved a || bool_decide (a = "+"%char) || bool_decide (a = "%"%char).

Fixpoint is_prefix (s t : string) : bool :=
  match s, t with
  | EmptyString, _ => true
  | String a s', String b t' => bool_decide (a = b) && is_prefix s' t'
  | String _ _, EmptyString => false
  end.

Definition all_units : list ascii := map ascii_of_nat (seq 0 256).

(** A string with neither a comma nor a space. *)
Definition one_word (s : string) : bool :=
  all_chars (fun a => negb (bool_decide (a = ","%char)) && negb (bool_decide (a = " "%char))) s.

(** A search term none of whose pages can be fetched. *)
Definition pages_down (penv : string -> PageEnv) : Prop :=
  forall url k, k <= MAX_RETRIES -> fetch_fails (penv url) k = true.

(** * Theorems *)

(** ** Strings *)

Lemma trimStart_head (s : string) :
  trimStart s = "" \/ exists a s', trimStart s = String a s' /\ isWhiteSpace a = false.
Proof.
  induction s as [ | a s IH]; simpl; [by left | ].
  destruct (isWhiteSpace a) eqn:Ha; [exact IH | right; eauto].
Qed.

Lemma trimEnd_cons (a : ascii) (s : string) :
  isWhiteSpace a = false -> exists t, trimEnd (String a s) = String a t.
Proof.
  intros Ha. simpl. destruct (trimEnd s); rewrite ?Ha; eauto.
Qed.

Lemma trimEnd_idem (s : string) : trimEnd (trimEnd s) = trimEnd s.
Proof.
  induction s as [ | a s IH]; simpl; [done | ].
  destruct (trimEnd s) as [ | b t] eqn:Hs.
  - destruct (isWhiteSpace a) eqn:Ha; simpl; [done | by rewrite Ha].
  - simpl in *. by rewrite IH.
Qed.

Lemma trim_idem (s : string) : trim (trim s) = trim s.
Proof.
  unfold trim.
  destruct (trimStart_head s) as [-> | (a & s' & -> & Ha)]; [done | ].
  destruct (trimEnd_cons a s' Ha) as [t Ht]. rewrite Ht.
  simpl trimStart. rewrite Ha, <- Ht. apply trimEnd_idem.
Qed.

Lemma or_else_nonempty (s d : string) : d <> "" -> or_else s d <> "".
Proof. unfold or_else. by case_decide. Qed.

Lemma or_else_trimmed (s d : string) : trimmed d -> trimmed (or_else (trim s) d).
Proof. unfold or_else, trimmed. case_decide; [done | intros _; apply trim_idem]. Qed.

(** Every field of a SearchData is the trimmed argument when that is not
    blank and the placeholder of the field otherwise; no field is empty. *)
Lemma SearchData_normalized (name description dates price url : option string) :
  let d := SearchData.constructor name description dates price url in
  let norm (x : option string) (placeholder : string) :=
    if decide (trim (default "" x) = "") then placeholder else trim (default "" x) in
  SearchData.name d = norm name "No name" /\
  SearchData.description d = norm description "No description" /\
  SearchData.dates d = norm dates "No dates" /\
  SearchData.price d = norm price "No price" /\
  SearchData.url d = norm url "No url" /\
  SearchData.name d <> "" /\ SearchData.description d <> "" /\
  SearchData.dates d <> "" /\ SearchData.price d <> "" /\ SearchData.url d <> "".
Proof.
  simpl. unfold param_string.
  repeat split; try reflexivity; by apply or_else_nonempty.
Qed.

(** No field of a SearchData has white space at either end. *)
Lemma SearchData_trimmed (name description dates price url : option string) :
  let d := SearchData.constructor name description dates price url in
  trimmed (SearchData.name d) /\ trimmed (SearchData.description d) /\
  trimmed (SearchData.dates d) /\ trimmed (SearchData.price d) /\
  trimmed (SearchData.url d).
Proof. cbn. repeat split; by apply or_else_trimmed. Qed.

(** The example of the specification. *)
Example SearchData_ocean_view :
  SearchData.constructor (Some " Ocean View ") (Some "") None None None
  = SearchData.mk "Ocean View" "No description" "No dates" "No price" "No url".
Proof. reflexivity. Qed.

(** What [checkStringFields] does to a string field: the placeholder for the
    empty string, the trimmed string otherwise. *)
Lemma ReviewData_string_fields (name review : string) (stars : Z) :
  let norm (field s : string) :=
    JString (if decide (s = "") then "No " +:+ field else trim s) in
  ReviewData.constructor (JString name) (JNumber stars) (JString review)
  = ReviewData.mk (norm "name" name) (JNumber stars) (norm "review" review).
Proof.
  unfold ReviewData.constructor, ReviewData.checkStringFields. simpl.
  unfold ReviewData.get, ReviewData.set. simpl.
  destruct (decide (name = "")) as [-> | Hn], (decide (review = "")) as [-> | Hr];
    simpl; repeat (case_decide; simpl); done.
Qed.

(** C4. ReviewData does not normalize a blank string as SearchData does: a
    name made of white space only is stored as the empty string, where
    SearchData stores the placeholder. *)
Theorem ReviewData_blank_name_stored_empty :
  ReviewData.name (ReviewData.constructor (JString "  ") (JNumber 3) (JString "ok"))
  = JString ""
  /\ SearchData.name (SearchData.constructor (Some "  ") None None None None)
    = "No name".
Proof. split; reflexivity. Qed.

(** ** DataPipeline *)

Lemma line_names_app (l1 l2 : list csv_line) :
  line_names (l1 ++ l2) = line_names l1 ++ line_names l2.
Proof. apply omap_app. Qed.

Lemma line_names_rows (data : list record) :
  line_names (map Row data) = map record_name data.
Proof. induction data as [ | d data IH]; simpl; [done | by f_equal]. Qed.

Lemma line_names_parse (data : list record) (header : bool) :
  line_names (parse data header) = map record_name data.
Proof.
  unfold parse. rewrite line_names_app, line_names_rows.
  by destruct header, data.
Qed.

Lemma parse_nil (header : bool) : parse [] header = [].
Proof. by destruct header. Qed.

Lemma content_insert (f : string) (lines : list csv_line)
    (m : gmap string (list csv_line)) (fs : list bool) (t : list event) :
  content f (mkWorld (<[f := lines]> m) fs t) = lines.
Proof. unfold content. simpl. by rewrite lookup_insert_eq. Qed.

(** A flush, case by case. *)
Lemma saveToCsv_spec (p : DataPipeline.t) (w : World) :
  exists r w',
    DataPipeline.saveToCsv (p, w) = (r, (emptied p, w')) /\
    trace w' = trace w /\
    match r with
    | Ok _ =>
        content (DataPipeline.csvFilename p) w'
        = content (DataPipeline.csvFilename p) w
          ++ parse (DataPipeline.storageQueue p)
               (negb (existsSync (DataPipeline.csvFilename p) w)) /\
        (DataPipeline.storageQueue p = [] -> w' = w) /\
        (DataPipeline.storageQueue p <> [] -> next_write_ok w)
    | Throw _ =>
        files w' = files w /\ DataPipeline.storageQueue p <> [] /\
        ~ next_write_ok w
    end.
Proof.
  destruct p as [seen queue limit f]. unfold DataPipeline.saveToCsv, emptied. simpl.
  destruct queue as [ | d queue]; simpl.
  - exists (Ok tt), w. rewrite parse_nil, app_nil_r. done.
  - unfold in_world, appendFileSync, next_write_ok.
    destruct w as [fs flt tr]. simpl.
    destruct flt as [ | [ | ] flt]; simpl.
    + eexists (Ok tt), _. split; [reflexivity | ]. rewrite content_insert. done.
    + eexists (Throw _), _. split; [reflexivity | ]. simpl. naive_solver.
    + eexists (Ok tt), _. split; [reflexivity | ]. rewrite content_insert. done.
Qed.

Lemma saveToCsv_empty (p : DataPipeline.t) (w : World) :
  DataPipeline.storageQueue p = [] ->
  DataPipeline.saveToCsv (p, w) = (Ok tt, (p, w)).
Proof. destruct p as [seen queue limit f]. simpl. by intros ->. Qed.

Lemma saveToCsv_ok (p : DataPipeline.t) (w : World) :
  next_write_ok w ->
  exists w',
    DataPipeline.saveToCsv (p, w) = (Ok tt, (emptied p, w')) /\
    trace w' = trace w /\
    content (DataPipeline.csvFilename p) w'
    = content (DataPipeline.csvFilename p) w
      ++ parse (DataPipeline.storageQueue p)
           (negb (existsSync (DataPipeline.csvFilename p) w)) /\
    (DataPipeline.storageQueue p = [] -> w' = w).
Proof.
  intros Hok. destruct (saveToCsv_spec p w) as (r & w' & E & Ht & Hr).
  destruct r as [[] | e].
  - exists w'. destruct Hr as (? & ? & ?). done.
  - by destruct Hr as (_ & _ & Hr).
Qed.

Lemma addData_duplicate (data : record) (p : DataPipeline.t) (w : World) :
  record_name data ∈ DataPipeline.namesSeen p ->
  DataPipeline.addData data (p, w)
  = (Ok tt,
     (p, logged (Log Warn ("Duplicate item found: " +:+ to_string (record_name data)
                           +:+ ". Item dropped.")) w)).
Proof.
  intros Hin. unfold DataPipeline.addData, bind, DataPipeline.isDuplicate.
  by rewrite decide_True.
Qed.

Lemma addData_fresh (data : record) (p : DataPipeline.t) (w : World) :
  record_name data ∉ DataPipeline.namesSeen p ->
  DataPipeline.addData data (p, w)
  = if Nat.leb (DataPipeline.storageQueueLimit p)
         (length (DataPipeline.storageQueue p ++ [data]))
    then DataPipeline.saveToCsv (accepted data p, w)
    else (Ok tt, (accepted data p, w)).
Proof.
  intros Hin. unfold DataPipeline.addData, bind, DataPipeline.isDuplicate.
  rewrite decide_False by done. simpl.
  by destruct (Nat.leb _ _).
Qed.

Lemma closePipeline_unfold (p : DataPipeline.t) (w : World) :
  DataPipeline.closePipeline (p, w) = DataPipeline.saveToCsv (p, w).
Proof.
  destruct p as [seen [ | d q] limit f]; reflexivity.
Qed.

Lemma saveToCsv_inv (f : string) (base : list csv_line) (p : DataPipeline.t)
    (w : World) :
  pipeline_inv f base p w ->
  exists r w', DataPipeline.saveToCsv (p, w) = (r, (emptied p, w')) /\
               trace w' = trace w /\ pipeline_inv f base (emptied p) w'.
Proof.
  intros (Hf & new & Hc & Hnd & Hseen).
  destruct (saveToCsv_spec p w) as (r & w' & E & Ht & Hr).
  exists r, w'. split; [done | ]. split; [done | ]. split; [done | ].
  rewrite Hf in Hr. destruct r as [[] | e].
  - destruct Hr as (Hc' & _).
    exists (new ++ parse (DataPipeline.storageQueue p) (negb (existsSync f w))).
    simpl. rewrite Hc', Hc, app_assoc, line_names_app, line_names_parse, app_nil_r.
    done.
  - destruct Hr as (Hfiles & _). exists new. simpl. rewrite app_nil_r.
    unfold content in *. rewrite Hfiles. split; [done | ].
    split.
    + by apply NoDup_app in Hnd as (? & _).
    + intros k Hk. apply Hseen. apply elem_of_app. by left.
Qed.

Lemma accepted_inv (f : string) (base : list csv_line) (data : record)
    (p : DataPipeline.t) (w : World) :
  record_name data ∉ DataPipeline.namesSeen p ->
  pipeline_inv f base p w -> pipeline_inv f base (accepted data p) w.
Proof.
  intros Hfresh (Hf & new & Hc & Hnd & Hseen). split; [done | ]. exists new. simpl.
  split; [done | ]. rewrite map_app, app_assoc. simpl. split.
  - apply NoDup_app. split; [done | ]. split.
    + intros k Hk Hk'. apply list_elem_of_singleton in Hk' as ->.
      by apply Hfresh, Hseen.
    + apply NoDup_singleton.
  - intros k Hk. apply elem_of_app in Hk as [Hk | Hk].
    + apply elem_of_union_r. by apply Hseen.
    + apply list_elem_of_singleton in Hk as ->. apply elem_of_union_l.
      by apply elem_of_singleton.
Qed.

Lemma perform_inv (f : string) (base : list csv_line) (c : call)
    (p : DataPipeline.t) (w : World) :
  pipeline_inv f base p w ->
  exists r p' w',
    perform c (p, w) = (r, (p', w')) /\
    pipeline_inv f base p' w' /\
    DataPipeline.namesSeen p ⊆ DataPipeline.namesSeen p'.
Proof.
  intros Hinv. destruct c as [data | ]; simpl.
  - destruct (decide (record_name data ∈ DataPipeline.namesSeen p)) as [Hin | Hin].
    + rewrite addData_duplicate by done. eexists _, _, _. split; [done | ].
      split; [ | done]. destruct Hinv as (? & new & ? & ? & ?).
      split; [done | ]. by exists new.
    + rewrite addData_fresh by done.
      pose proof (accepted_inv f base data p w Hin Hinv) as Hinv'.
      destruct (Nat.leb _ _).
      * destruct (saveToCsv_inv f base _ _ Hinv') as (r & w' & E & _ & Hinv'').
        rewrite E. eexists _, _, _. split; [done | ]. split; [done | ].
        simpl. apply union_subseteq_r.
      * eexists _, _, _. split; [done | ]. split; [done | ].
        simpl. apply union_subseteq_r.
  - rewrite closePipeline_unfold.
    destruct (saveToCsv_inv f base _ _ Hinv) as (r & w' & E & _ & Hinv').
    rewrite E. eexists _, _, _. split; [done | ]. split; done.
Qed.

Lemma perform_all_inv (f : string) (base : list csv_line) (cs : list call)
    (p : DataPipeline.t) (w : World) :
  pipeline_inv f base p w ->
  pipeline_inv f base (perform_all cs (p, w)).1 (perform_all cs (p, w)).2 /\
  DataPipeline.namesSeen p ⊆ DataPipeline.namesSeen (perform_all cs (p, w)).1.
Proof.
  revert p w. induction cs as [ | c cs IH]; intros p w Hinv; simpl; [done | ].
  destruct (perform_inv f base c p w Hinv) as (r & p' & w' & E & Hinv' & Hsub).
  rewrite E. simpl. destruct (IH p' w' Hinv') as [H1 H2].
  split; [done | ]. by transitivity (DataPipeline.namesSeen p').
Qed.

Lemma emptied_id (p : DataPipeline.t) :
  DataPipeline.storageQueue p = [] -> emptied p = p.
Proof. destruct p as [seen q limit f]. simpl. by intros ->. Qed.

Lemma for_of_cons {St A} (x : A) (xs : list A) (f : A -> M St unit) (s : St) :
  for_of (x :: xs) f s
  = match f x s with
    | (Ok _, s') => for_of xs f s'
    | (Throw e, s') => (Throw e, s')
    end.
Proof. reflexivity. Qed.

Lemma for_of_app {St A} (xs ys : list A) (f : A -> M St unit) (s : St) :
  for_of (xs ++ ys) f s
  = match for_of xs f s with
    | (Ok _, s') => for_of ys f s'
    | (Throw e, s') => (Throw e, s')
    end.
Proof.
  revert s. induction xs as [ | x xs IH]; intros s; [done | ].
  rewrite <- app_comm_cons, !for_of_cons.
  destruct (f x s) as [[[] | e] s']; [apply IH | done].
Qed.

(** Records with fresh, pairwise distinct keys pile up in the batch, with no
    effect on the world, as long as the batch stays below its limit. *)
Lemma for_of_addData_below (ds : list record) (p : DataPipeline.t) (w : World) :
  NoDup (map record_name ds) ->
  (forall d, d ∈ ds -> record_name d ∉ DataPipeline.namesSeen p) ->
  length (DataPipeline.storageQueue p) + length ds < DataPipeline.storageQueueLimit p ->
  exists p',
    for_of ds DataPipeline.addData (p, w) = (Ok tt, (p', w)) /\
    DataPipeline.storageQueue p' = DataPipeline.storageQueue p ++ ds /\
    DataPipeline.storageQueueLimit p' = DataPipeline.storageQueueLimit p /\
    DataPipeline.csvFilename p' = DataPipeline.csvFilename p /\
    DataPipeline.namesSeen p'
    = DataPipeline.namesSeen p ∪ list_to_set (map record_name ds).
Proof.
  revert p. induction ds as [ | d ds IH]; intros p Hnd Hfresh Hlen.
  - exists p. rewrite app_nil_r. simpl. split; [done | ]. set_solver.
  - rewrite for_of_cons, addData_fresh by (apply Hfresh; set_solver).
    simpl in Hnd, Hlen. apply NoDup_cons in Hnd as [Hd Hnd].
    rewrite length_app. simpl.
    destruct (Nat.leb_spec (DataPipeline.storageQueueLimit p)
                (length (DataPipeline.storageQueue p) + 1)) as [Hle | Hlt]; [lia | ].
    destruct (IH (accepted d p)) as (p' & E & Hq & Hl & Hf & Hs).
    + done.
    + intros d' Hd'. simpl. apply not_elem_of_union. split.
      * apply not_elem_of_singleton. intros Heq. apply Hd. rewrite <- Heq.
        apply list_elem_of_fmap. by exists d'.
      * apply Hfresh. set_solver.
    + simpl. rewrite length_app. simpl. lia.
    + exists p'. rewrite E, Hq, Hl, Hf, Hs. simpl.
      rewrite <- app_assoc. simpl. repeat split; try done. set_solver.
Qed.

(** C3 (as stated, refuted). A pipeline holds one record and the sink
    refuses the write: after the flush the record is in neither the batch
    nor the sink. *)
Lemma failed_flush_drops_batch : ~ flush_keeps_records pipeline_with_A failing_world.
Proof.
  intros H.
  destruct (H "write failed" (emptied pipeline_with_A) (mkWorld ∅ [] []) eq_refl)
    as [_ Hd].
  destruct (Hd listing_A) as [Hin | Hin].
  - apply list_elem_of_singleton. reflexivity.
  - simpl in Hin. by apply not_elem_of_nil in Hin.
  - unfold content in Hin. simpl in Hin. by apply not_elem_of_nil in Hin.
Qed.

(** C3 (amended). A flush takes the whole batch out of memory before the
    serialize-and-append step. Whatever that step does, the seen-set is
    kept and the batch is left empty. When the step throws, the files are
    unchanged, so the records taken are in neither the batch nor the sink
    and none is written twice; when it succeeds, the lines appended are
    exactly those of the records taken. *)
Theorem saveToCsv_takes_batch_first (p : DataPipeline.t) (w : World) :
  exists r p' w',
    DataPipeline.saveToCsv (p, w) = (r, (p', w')) /\
    DataPipeline.namesSeen p' = DataPipeline.namesSeen p /\
    DataPipeline.storageQueue p' = [] /\
    match r with
    | Ok _ =>
        content (DataPipeline.csvFilename p) w'
        = content (DataPipeline.csvFilename p) w
          ++ parse (DataPipeline.storageQueue p)
               (negb (existsSync (DataPipeline.csvFilename p) w))
    | Throw _ =>
        files w' = files w /\ DataPipeline.storageQueue p <> []
    end.
Proof.
  destruct (saveToCsv_spec p w) as (r & w' & E & _ & Hr).
  exists r, (emptied p), w'. repeat split; try done.
  destruct r as [[] | e]; [by destruct Hr | by destruct Hr as (? & ? & _)].
Qed.

Lemma perform_seen_mono (c : call) (p : DataPipeline.t) (w : World) :
  DataPipeline.namesSeen p ⊆ DataPipeline.namesSeen (perform c (p, w)).2.1.
Proof.
  destruct c as [data | ]; simpl.
  - destruct (decide (record_name data ∈ DataPipeline.namesSeen p)) as [Hin | Hin].
    + by rewrite addData_duplicate.
    + rewrite addData_fresh by done. destruct (Nat.leb _ _); simpl.
      * destruct (saveToCsv_spec (accepted data p) w) as (r & w' & -> & _).
        simpl. set_solver.
      * set_solver.
  - rewrite closePipeline_unfold.
    by destruct (saveToCsv_spec p w) as (r & w' & -> & _).
Qed.

(** C6. Over the lifetime of a pipeline, whatever the calls made on it and
    whatever the sink does, the keys written to the file and held in the
    batch are pairwise distinct. A record with a new key is appended to the
    batch and its key enters the seen-set (the threshold check follows); a
    record with a key already seen leaves the pipeline as it was, returns
    normally and logs one warning; no call ever shrinks the seen-set, a
    flush keeps it as it is. *)
Theorem natural_key_stored_once :
  (forall (f : string) (limit : option nat) (cs : list call) (w : World),
      let s' := perform_all cs (DataPipeline.constructor f limit, w) in
      exists new,
        content f s'.2 = content f w ++ new /\
        NoDup (line_names new ++ map record_name (DataPipeline.storageQueue s'.1)))
  /\ (forall (data : record) (p : DataPipeline.t) (w : World),
        record_name data ∉ DataPipeline.namesSeen p ->
        DataPipeline.addData data (p, w)
        = if Nat.leb (DataPipeline.storageQueueLimit p)
               (length (DataPipeline.storageQueue p ++ [data]))
          then DataPipeline.saveToCsv (accepted data p, w)
          else (Ok tt, (accepted data p, w)))
  /\ (forall (data : record) (p : DataPipeline.t) (w : World),
        record_name data ∈ DataPipeline.namesSeen p ->
        DataPipeline.addData data (p, w)
        = (Ok tt,
           (p, logged (Log Warn ("Duplicate item found: "
                                 +:+ to_string (record_name data)
                                 +:+ ". Item dropped.")) w)))
  /\ (forall (c : call) (p : DataPipeline.t) (w : World),
        DataPipeline.namesSeen p ⊆ DataPipeline.namesSeen (perform c (p, w)).2.1)
  /\ (forall (p : DataPipeline.t) (w : World),
        DataPipeline.namesSeen (DataPipeline.saveToCsv (p, w)).2.1
        = DataPipeline.namesSeen p).
Proof.
  split; [ | split; [ | split; [ | split]]].
  - intros f limit cs w s'.
    assert (pipeline_inv f (content f w) (DataPipeline.constructor f limit) w) as Hinv.
    { split; [done | ]. exists []. simpl. rewrite app_nil_r. split; [done | ]. split.
      - apply NoDup_nil_2.
      - intros k Hk. by apply not_elem_of_nil in Hk. }
    destruct (perform_all_inv _ _ cs _ _ Hinv) as [(_ & new & Hc & Hnd & _) _].
    by exists new.
  - intros. by apply addData_fresh.
  - intros. by apply addData_duplicate.
  - apply perform_seen_mono.
  - intros p w. by destruct (saveToCsv_spec p w) as (r & w' & -> & _).
Qed.

Lemma natural_key_stored_once_witness :
  ((record_name listing_B ∉ DataPipeline.namesSeen pipeline_with_A) /\
   DataPipeline.addData listing_B (pipeline_with_A, empty_world)
   = (Ok tt, (accepted listing_B pipeline_with_A, empty_world)))
  /\ ((record_name listing_A ∈ DataPipeline.namesSeen pipeline_with_A) /\
      DataPipeline.addData listing_A (pipeline_with_A, empty_world)
      = (Ok tt,
         (pipeline_with_A,
          logged (Log Warn "Duplicate item found: Condo A. Item dropped.") empty_world))).
Proof.
  assert (record_name listing_B ∉ DataPipeline.namesSeen pipeline_with_A) as HB.
  { unfold pipeline_with_A. simpl. intros H.
    apply elem_of_singleton in H. discriminate H. }
  assert (record_name listing_A ∈ DataPipeline.namesSeen pipeline_with_A) as HA.
  { unfold pipeline_with_A. simpl. apply elem_of_singleton. reflexivity. }
  destruct natural_key_stored_once as (_ & Hfresh & Hdup & _).
  split; split; [exact HB | | exact HA | ].
  - exact (Hfresh listing_B pipeline_with_A empty_world HB).
  - exact (Hdup listing_A pipeline_with_A empty_world HA).
Defined.

(** C7. A pipeline with limit [T], an empty batch and a working sink is
    given records with pairwise distinct keys it has not seen. After [T] of
    them the batch is empty and the file has gained exactly their lines
    (after a header when the file is new); after [T - 1] of them the batch
    holds them all, in order, and the world is as it was. *)
Theorem flush_at_threshold (T : nat) (p : DataPipeline.t) (w : World) (ds : list record) :
  1 <= T ->
  DataPipeline.storageQueueLimit p = T ->
  DataPipeline.storageQueue p = [] ->
  NoDup (map record_name ds) ->
  (forall d, d ∈ ds -> record_name d ∉ DataPipeline.namesSeen p) ->
  next_write_ok w ->
  (length ds = T ->
   exists p' w',
     for_of ds DataPipeline.addData (p, w) = (Ok tt, (p', w')) /\
     DataPipeline.storageQueue p' = [] /\
     content (DataPipeline.csvFilename p) w'
     = content (DataPipeline.csvFilename p) w
       ++ parse ds (negb (existsSync (DataPipeline.csvFilename p) w)))
  /\ (length ds = T - 1 ->
      exists p',
        for_of ds DataPipeline.addData (p, w) = (Ok tt, (p', w)) /\
        DataPipeline.storageQueue p' = ds).
Proof.
  intros HT Hlimit Hqueue Hnd Hfresh Hok. split; intros Hlen.
  - destruct (exists_last (l := ds)) as (ds' & d & ->).
    { intros ->. simpl in Hlen. lia. }
    rewrite length_app in Hlen. simpl in Hlen.
    rewrite map_app in Hnd. apply NoDup_app in Hnd as (Hnd' & Hd & _).
    destruct (for_of_addData_below ds' p w) as (p1 & E & Hq & Hl & Hf & Hs).
    + done.
    + intros d' Hd'. apply Hfresh. apply elem_of_app. by left.
    + rewrite Hqueue. simpl. lia.
    + rewrite for_of_app, E, for_of_cons.
      rewrite Hqueue in Hq. simpl in Hq.
      rewrite addData_fresh; cycle 1.
      { rewrite Hs. apply not_elem_of_union. split.
        - apply Hfresh. apply elem_of_app. right. by apply list_elem_of_singleton.
        - intros Hin. apply elem_of_list_to_set in Hin.
          apply (Hd _ Hin). simpl. by apply list_elem_of_singleton. }
      rewrite Hq, Hl, Hlimit, length_app. simpl.
      destruct (Nat.leb_spec T (length ds' + 1)) as [_ | Hlt]; [ | lia].
      destruct (saveToCsv_ok (accepted d p1) w Hok) as (w' & E' & _ & Hc & _).
      rewrite E'. exists (emptied (accepted d p1)), w'.
      split; [done | ]. split; [done | ].
      simpl in Hc. rewrite Hf, Hq in Hc. exact Hc.
  - destruct (for_of_addData_below ds p w) as (p1 & E & Hq & _).
    + done.
    + done.
    + rewrite Hqueue. simpl. lia.
    + exists p1. split; [done | ]. by rewrite Hq, Hqueue.
Qed.

Lemma flush_at_threshold_witness :
  let p := DataPipeline.constructor "out.csv" (Some 2) in
  (exists p' w',
      for_of [listing_A; listing_B] DataPipeline.addData (p, empty_world)
      = (Ok tt, (p', w')) /\
      DataPipeline.storageQueue p' = [] /\
      content "out.csv" w'
      = [Header SearchData.columns; Row listing_A; Row listing_B]).
Proof.
  intros p.
  assert (NoDup (map record_name [listing_A; listing_B])) as Hnd.
  { apply NoDup_cons. split.
    - intros H. apply list_elem_of_singleton in H. discriminate H.
    - apply NoDup_singleton. }
  assert (forall d, d ∈ [listing_A; listing_B] -> record_name d ∉ DataPipeline.namesSeen p)
    as Hfresh.
  { intros d _. apply not_elem_of_empty. }
  assert (next_write_ok empty_world) as Hok.
  { intros H. discriminate H. }
  exact (proj1 (flush_at_threshold 2 p empty_world [listing_A; listing_B]
                  (le_S 1 1 (le_n 1)) eq_refl eq_refl Hnd Hfresh Hok) eq_refl).
Defined.

(** C8. With a working sink, [closePipeline] returns with the batch empty
    and the file grown by exactly the lines of the records the batch held
    (none, and no header, when it held none: the pipeline and the world are
    then unchanged). From the state it leaves, closing again and flushing
    again change nothing. *)
Theorem closePipeline_flushes_once (p : DataPipeline.t) (w : World) :
  next_write_ok w ->
  exists p' w',
    DataPipeline.closePipeline (p, w) = (Ok tt, (p', w')) /\
    DataPipeline.storageQueue p' = [] /\
    content (DataPipeline.csvFilename p) w'
    = content (DataPipeline.csvFilename p) w
      ++ parse (DataPipeline.storageQueue p)
           (negb (existsSync (DataPipeline.csvFilename p) w)) /\
    (DataPipeline.storageQueue p = [] -> p' = p /\ w' = w) /\
    DataPipeline.closePipeline (p', w') = (Ok tt, (p', w')) /\
    DataPipeline.saveToCsv (p', w') = (Ok tt, (p', w')).
Proof.
  intros Hok. rewrite closePipeline_unfold.
  destruct (saveToCsv_ok p w Hok) as (w' & E & _ & Hc & Hw).
  exists (emptied p), w'. rewrite closePipeline_unfold.
  split; [done | ]. split; [done | ]. split; [done | ]. split.
  - intros Hq. split; [by apply emptied_id | by apply Hw].
  - split; by apply saveToCsv_empty.
Qed.

Lemma closePipeline_flushes_once_witness :
  next_write_ok empty_world /\
  exists p' w',
    DataPipeline.closePipeline (pipeline_with_A, empty_world) = (Ok tt, (p', w')) /\
    DataPipeline.storageQueue p' = [] /\
    content "out.csv" w' = [Header SearchData.columns; Row listing_A] /\
    DataPipeline.closePipeline (p', w') = (Ok tt, (p', w')).
Proof.
  assert (next_write_ok empty_world) as Hok.
  { intros H. discriminate H. }
  split; [exact Hok | ].
  destruct (closePipeline_flushes_once pipeline_with_A empty_world Hok)
    as (p' & w' & E & Hq & Hc & _ & Hagain & _).
  exists p', w'. repeat split; assumption.
Defined.

(** ** findPaginationUrls *)

Lemma slice_to_nonneg {A} (l : list A) (stop : Z) :
  (0 <= stop)%Z -> slice_to l stop = take (Z.to_nat stop) l.
Proof.
  intros H. unfold slice_to.
  destruct (Z.ltb_spec stop 0) as [Hlt | _]; [lia | done].
Qed.

(** C9. With a page cap [P] of at least one, page discovery returns the URL
    of the first results page of the term followed by the first [P - 1]
    pagination links of that page, in their order: at most [P] URLs. When
    the page cannot be fetched or read, the error is logged and the list is
    the first URL alone. Discovery never throws and writes no file. *)
Theorem findPaginationUrls_links (env : DiscoverEnv) (keyword : string)
    (pages : option Z) (w : World) :
  (1 <= default PAGES pages)%Z ->
  exists links w',
    findPaginationUrls env keyword pages w = (Ok links, w') /\
    files w' = files w /\
    head links = Some (search_url keyword) /\
    (Z.of_nat (length links) <= default PAGES pages)%Z /\
    match discover_goto env, discover_links env with
    | None, Ok paginationLinks =>
        links = search_url keyword
                  :: take (Z.to_nat (default PAGES pages - 1)) paginationLinks
    | Some error, _ | None, Throw error =>
        links = [search_url keyword] /\
        Log Error ("Error fetching pagination URLs: " +:+ error) ∈ trace w'
    end.
Proof.
  intros HP.
  unfold findPaginationUrls, bind, try, emit, modify, raise_if, of_result, ret, throw.
  assert (forall (e : event) (l1 l2 l3 : list event), e ∈ ((l1 ++ [e]) ++ l2) ++ l3)
    as Hmid.
  { intros e l1 l2 l3. do 2 (apply elem_of_app; left). apply elem_of_app. right.
    by apply list_elem_of_singleton. }
  destruct env as [[error | ] [paginationLinks | error']]; simpl;
    (eexists _, _; split; [reflexivity | ]; simpl; split; [done | ]; split; [done | ]).
  - split; [lia | ]. split; [done | apply Hmid].
  - split; [lia | ]. split; [done | apply Hmid].
  - rewrite slice_to_nonneg by lia. split; [ | done].
    rewrite length_take. lia.
  - split; [lia | ]. split; [done | apply Hmid].
Qed.

Lemma findPaginationUrls_links_witness :
  (1 <= default PAGES None)%Z /\
  (exists w',
      findPaginationUrls five_links "Myrtle Beach, South Carolina" None empty_world
      = (Ok ["https://www.airbnb.com/s/Myrtle-Beach--South-Carolina/homes";
             "p2"; "p3"; "p4"], w')) /\
  (exists w',
      findPaginationUrls unreachable "Myrtle Beach, South Carolina" None empty_world
      = (Ok ["https://www.airbnb.com/s/Myrtle-Beach--South-Carolina/homes"], w') /\
      Log Error "Error fetching pagination URLs: net::ERR_TIMED_OUT" ∈ trace w').
Proof.
  assert (1 <= default PAGES None)%Z as HP by (unfold PAGES; simpl; lia).
  split; [exact HP | ]. split.
  - destruct (findPaginationUrls_links five_links "Myrtle Beach, South Carolina"
                None empty_world HP) as (links & w' & E & _ & _ & _ & Hl).
    exists w'. rewrite E. simpl in Hl. rewrite Hl. reflexivity.
  - destruct (findPaginationUrls_links unreachable "Myrtle Beach, South Carolina"
                None empty_world HP) as (links & w' & E & _ & _ & _ & Hl).
    exists w'. rewrite E. simpl in Hl. destruct Hl as [-> Hlog]. split; [reflexivity | ].
    exact Hlog.
Defined.

(** ** scrapeSearchResults *)

Lemma count_app (f : event -> bool) (t1 t2 : list event) :
  count f (t1 ++ t2) = count f t1 + count f t2.
Proof. induction t1 as [ | e t1 IH]; simpl; [done | rewrite IH; lia]. Qed.

Lemma count_warnings (f : event -> bool) (d : list event) :
  (forall e, is_warning e = true -> f e = false) ->
  Forall (fun e => is_warning e = true) d -> count f d = 0.
Proof.
  intros Hf. induction 1 as [ | e d He _ IH]; simpl; [done | ].
  by rewrite (Hf e He), IH.
Qed.

Lemma warning_not_goto (url : string) (e : event) :
  is_warning e = true -> is_goto url e = false.
Proof. by destruct e as [[ | | ] ? | | | | | | | | ]. Qed.

Lemma warning_not_error (e : event) : is_warning e = true -> is_error_log e = false.
Proof. by destruct e as [[ | | ] ? | | | | | | | | ]. Qed.


Lemma is_goto_same (url : string) : is_goto url (Goto url) = true.
Proof. simpl. by apply bool_decide_eq_true_2. Qed.

Lemma is_success_same (url : string) : is_success url (success_log url) = true.
Proof. unfold is_success, success_log. by apply bool_decide_eq_true_2. Qed.

Lemma count_cons (f : event -> bool) (e : event) (t : list event) :
  count f (e :: t) = (if f e then 1 else 0) + count f t.
Proof. reflexivity. Qed.

Lemma count_nil (f : event -> bool) : count f [] = 0.
Proof. reflexivity. Qed.


(** One call of [addData]: it logs warnings only, and returns or throws with
    the key of its record in the seen-set. *)
Lemma addData_trace (data : record) (p : DataPipeline.t) (w : World) :
  exists r p' w' d,
    DataPipeline.addData data (p, w) = (r, (p', w')) /\
    trace w' = trace w ++ d /\
    Forall (fun e => is_warning e = true) d /\
    DataPipeline.namesSeen p ⊆ DataPipeline.namesSeen p' /\
    record_name data ∈ DataPipeline.namesSeen p'.
Proof.
  destruct (decide (record_name data ∈ DataPipeline.namesSeen p)) as [Hin | Hin].
  - rewrite addData_duplicate by done. eexists _, _, _, [_].
    split; [reflexivity | ]. split; [reflexivity | ].
    split; [by repeat constructor | done].
  - rewrite addData_fresh by done.
    assert (DataPipeline.namesSeen p ⊆ {[record_name data]} ∪ DataPipeline.namesSeen p)
      as Hsub by apply union_subseteq_r.
    assert (record_name data ∈ ({[record_name data]} ∪ DataPipeline.namesSeen p
                                : gset jsval)) as Hnew.
    { apply elem_of_union_l. by apply elem_of_singleton. }
    destruct (Nat.leb _ _).
    + destruct (saveToCsv_spec (accepted data p) w) as (r & w' & E & Ht & _).
      rewrite E. exists r, (emptied (accepted data p)), w', [].
      rewrite app_nil_r. done.
    + eexists _, _, _, []. split; [reflexivity | ]. rewrite app_nil_r. done.
Qed.

Lemma for_of_addData_trace {A} (f : A -> record) (items : list A)
    (p : DataPipeline.t) (w : World) :
  exists r p' w' d,
    for_of items (fun item => DataPipeline.addData (f item)) (p, w) = (r, (p', w')) /\
    trace w' = trace w ++ d /\
    Forall (fun e => is_warning e = true) d /\
    DataPipeline.namesSeen p ⊆ DataPipeline.namesSeen p' /\
    (is_ok r = true ->
     forall item, item ∈ items -> record_name (f item) ∈ DataPipeline.namesSeen p').
Proof.
  revert p w. induction items as [ | item items IH]; intros p w.
  - exists (Ok tt), p, w, []. rewrite app_nil_r. simpl.
    repeat split; try done. intros _ item Hin. by apply not_elem_of_nil in Hin.
  - rewrite for_of_cons.
    destruct (addData_trace (f item) p w) as (r1 & p1 & w1 & d1 & E1 & Ht1 & Hw1 & Hs1 & Hin1).
    rewrite E1. destruct r1 as [[] | e].
    + destruct (IH p1 w1) as (r & p' & w' & d & E & Ht & Hw & Hs & Hin).
      rewrite E. exists r, p', w', (d1 ++ d).
      split; [done | ]. split; [by rewrite Ht, Ht1, app_assoc | ].
      split; [by apply Forall_app | ]. split; [by transitivity (DataPipeline.namesSeen p1) | ].
      intros Hr item' Hitem. apply elem_of_cons in Hitem as [-> | Hitem].
      * by apply Hs.
      * by apply Hin.
    + exists (Throw e), p1, w1, d1. simpl. repeat split; try done.
Qed.

(** One attempt: it navigates once, logs its success when it returns, and
    returns only when the target has answered and every record has gone
    through [addData]. *)
Lemma scrape_attempt_spec (env : PageEnv) (url : string) (tries : nat)
    (p : DataPipeline.t) (w : World) :
  exists r p' w' d,
    scrape_attempt env url tries (p, w) = (r, (p', w')) /\
    trace w' = trace w ++ Goto url :: d ++ (if is_ok r then [success_log url] else []) /\
    Forall (fun e => is_warning e = true) d /\
    DataPipeline.namesSeen p ⊆ DataPipeline.namesSeen p' /\
    (is_ok r = true ->
     exists items,
       evaluate_result env tries = Ok items /\
       forall item, item ∈ items ->
         record_name (card_record item) ∈ DataPipeline.namesSeen p') /\
    (fetch_fails env tries = true -> is_ok r = false).
Proof.
  unfold scrape_attempt, fetch_fails, bind, in_world, emit, modify, raise_if, of_result,
    throw, ret.
  destruct (goto_error env tries) as [e | ]; simpl.
  { eexists (Throw e), _, _, []. simpl. repeat split; try done. }
  destruct (evaluate_result env tries) as [items | e]; simpl.
  2: { eexists (Throw e), _, _, []. simpl. repeat split; try done. }
  destruct (for_of_addData_trace card_record items p (logged (Goto url) w))
    as (r & p' & w' & d & E & Ht & Hw & Hs & Hin).
  unfold logged in E. rewrite E. destruct r as [[] | e]; simpl.
  - eexists (Ok tt), _, _, d. simpl. split; [reflexivity | ]. simpl.
    rewrite Ht. simpl. rewrite <- !app_assoc. simpl.
    repeat split; try done. intros _. exists items. split; [done | by apply Hin].
  - eexists (Throw e), _, _, d. simpl. split; [reflexivity | ].
    rewrite Ht. simpl. rewrite <- !app_assoc, app_nil_r. simpl.
    repeat split; try done.
Qed.


Arguments scrape_attempt : simpl never.




(** The run of the specification's example: two timeouts, then a page with
    two cards. Three navigations, two reloads, both records stored. *)
Example scrapeSearchResults_third_attempt :
  let '(r, (p', w')) :=
    scrapeSearchResults third_time_lucky "https://a" 2
      (DataPipeline.constructor "out.csv" None, empty_world) in
  r = Ok tt /\
  count (is_goto "https://a") (trace w') = 3 /\
  count (is_reload "https://a") (trace w') = 2 /\
  map record_name (DataPipeline.storageQueue p') = [JString "Condo A"; JString "Condo B"].
Proof. vm_compute. done. Qed.

(** ** processListing *)

Arguments listing_attempt : simpl never.











(** ** The windowed loops *)

(** C1. In the search crawl a window does not wait for all its calls: the
    first page of a window of two times out at each of its three attempts
    while the second is still loading; [Promise.all] rejects at once, the
    loop resumes through its [catch] and starts the call for the third page,
    which belongs to the next window, while the second page's promise is
    still pending. *)
Theorem search_window_overlaps :
  exists l st,
    run_schedule (search_window first_page_down three_pages)
      [Window.Spawn; Window.Settle 0; Window.Resume; Window.Spawn]
      (Window.init 3, (DataPipeline.constructor "Term.csv" None, empty_world))
    = Some (l, st) /\
    Window.tasks l = [Window.Rejected; Window.Pending; Window.Pending] /\
    count (is_goto "page1") (trace st.2) = 3 /\
    ~ Window.sequenced MAX_SEARCH_DATA_THREADS 3 l.
Proof.
  eexists _, _. split; [vm_compute; reflexivity | ].
  split; [reflexivity | ]. split; [reflexivity | ].
  intros H.
  destruct (H 1 2 ltac:(lia) ltac:(lia) eq_refl) as [Hs | Hs].
  - exists Window.Pending. split; [reflexivity | discriminate].
  - discriminate Hs.
  - discriminate Hs.
Qed.

(** C10. The file loop does not wait for a crawl: [processResults] returns
    as soon as its stream handlers are attached, so the main function calls
    it for the second file, whose rows are read and whose first window is
    started, while the stream of the first file has not yet ended. *)
Theorem second_file_starts_before_first_ends :
  exists crawls w',
    run_schedule
      (Details.step (fun _ => one_review) (Some MAX_RETRIES)
         ["Term-One.csv"; "Term-Two.csv"])
      [Details.Call; Details.Call; Details.StreamEnd 1;
       Details.InLoop 1 Window.Spawn]
      ([], two_files)
    = Some (crawls, w') /\
    crawls = [Details.Reading;
              Details.Looping [row_B] (Window.mk 0 true None [Window.Pending])] /\
    ~ Details.sequenced crawls.
Proof.
  eexists _, _. split; [vm_compute; reflexivity | ].
  split; [reflexivity | ].
  intros H. specialize (H 0 ltac:(cbn; lia)). discriminate H.
Qed.

Section WindowFacts.
Context {T St : Type}.
Variable task : T -> M St unit.
Variable limit : nat.
Variable on_catch : string -> M St unit.
Variable items : list T.

Lemma start_from_lookup (i a len : nat) (ts : list Window.status) (k : nat) :
  foldl (fun ts j => <[i + j := Window.Pending]> ts) ts (seq a len) !! k
  = if decide (i + a <= k < i + a + len /\ k < length ts)
    then Some Window.Pending else ts !! k.
Proof.
  revert a ts. induction len as [ | len IH]; intros a ts; cbn [seq foldl].
  - case_decide; [lia | done].
  - rewrite IH, length_insert, list_lookup_insert.
    repeat case_decide; try done; lia.
Qed.

Lemma start_lookup (l : Window.t) (k : nat) :
  Window.start limit l !! k
  = if decide (Window.i l <= k < Window.i l + limit /\ k < length (Window.tasks l))
    then Some Window.Pending else Window.tasks l !! k.
Proof.
  unfold Window.start. rewrite start_from_lookup.
  repeat case_decide; try done; lia.
Qed.

Lemma start_length (l : Window.t) :
  length (Window.start limit l) = length (Window.tasks l).
Proof.
  unfold Window.start. generalize (Window.tasks l). generalize 0.
  induction limit as [ | len IH]; intros a ts; cbn [seq foldl]; [done | ].
  by rewrite IH, length_insert.
Qed.


Lemma step_started_below_frontier (c : Window.choice) (l l' : Window.t) (st st' : St) :
  Window.step task limit on_catch items c (l, st) = Some (l', st') ->
  started_below_frontier limit (length items) l -> started_below_frontier limit (length items) l'.
Proof.
  unfold started_below_frontier, frontier.
  intros Hstep [Hlen Hinv]. destruct c as [ | k | ]; cbn [Window.step] in Hstep.
  - destruct (negb (Window.awaiting l) && Nat.ltb (Window.i l) (length items)) eqn:Hc;
      [ | done].
    injection Hstep as <- <-. cbn. rewrite start_length. split; [done | ].
    intros k s Hs Hk. rewrite start_lookup in Hs.
    case_decide; [by injection Hs as <- | ].
    apply (Hinv k s Hs). apply lookup_lt_Some in Hs.
    destruct (Window.awaiting l); lia.
  - destruct (items !! k) as [item | ]; [ | done].
    destruct (Window.tasks l !! k) as [[ | | | ] | ] eqn:Hk; try done.
    destruct (task item st) as [[[] | e] st1]; injection Hstep as <- <-; cbn;
      rewrite length_insert; (split; [done | ]);
      intros k' s Hs Hk'; rewrite list_lookup_insert in Hs;
      (case_decide; [by injection Hs as <- | by apply (Hinv k' s)]).
  - destruct (Window.awaiting l) eqn:Ha; [ | done].
    destruct (Window.rejection l) as [e | ].
    + destruct (on_catch e st) as [r st1]. injection Hstep as <- <-. cbn.
      split; [done | ]. intros k s Hs Hk. apply (Hinv k s Hs). lia.
    + destruct (Window.all_fulfilled limit l); [ | done].
      injection Hstep as <- <-. cbn.
      split; [done | ]. intros k s Hs Hk. apply (Hinv k s Hs). lia.
Qed.

Lemma run_started_below_frontier (cs : list Window.choice) (l l' : Window.t) (st st' : St) :
  run_schedule (Window.step task limit on_catch items) cs (l, st) = Some (l', st') ->
  started_below_frontier limit (length items) l -> started_below_frontier limit (length items) l'.
Proof.
  revert l st. induction cs as [ | c cs IH]; intros l st Hrun Hinv;
    cbn [run_schedule] in Hrun.
  - injection Hrun as H1 H2. by subst.
  - destruct (Window.step task limit on_catch items c (l, st)) as [[l1 st1] | ] eqn:Hstep;
      [ | done].
    eapply IH; [exact Hrun | ]. by eapply step_started_below_frontier.
Qed.

(** Whatever is rejected on the way, a loop that has left its last iteration
    has made the call of every item: a failure does not keep the remaining
    windows from running. *)
Lemma finished_all_started (cs : list Window.choice) (l : Window.t) (st st' : St) :
  run_schedule (Window.step task limit on_catch items) cs
    (Window.init (length items), st) = Some (l, st') ->
  Window.finished items l = true ->
  forall k, k < length items -> Window.started l k.
Proof.
  intros Hrun Hfin k Hk.
  assert (started_below_frontier limit (length items) (Window.init (length items))) as Hinit.
  { split; [cbn; by rewrite length_replicate | ].
    intros k' s _ Hk'. unfold frontier in Hk'. cbn in Hk'. lia. }
  destruct (run_started_below_frontier cs _ _ _ _ Hrun Hinit) as [Hlen Hinv].
  destruct (lookup_lt_is_Some_2 (Window.tasks l) k) as [s Hs]; [lia | ].
  exists s. split; [done | ]. apply (Hinv k s Hs).
  unfold Window.finished in Hfin. apply andb_true_iff in Hfin as [Ha Hi].
  apply Nat.leb_le in Hi. unfold frontier. lia.
Qed.

Hypothesis task_returns : forall item st, exists st', task item st = (Ok tt, st').





End WindowFacts.


(** X29. In the search crawl a loop that has run to its end has made the
    call of every page, whatever was rejected on the way: a failure does not
    keep the remaining windows from running. *)
Lemma search_window_runs_every_window (env : string -> PageEnv) (pageUrls : list string)
    (cs : list Window.choice) (s s' : DataPipeline.t * World) (l : Window.t) :
  run_schedule (search_window env pageUrls) cs (Window.init (length pageUrls), s)
  = Some (l, s') ->
  Window.finished pageUrls l = true ->
  forall k, k < length pageUrls -> Window.started l k.
Proof. apply finished_all_started. Qed.

(** The same in the detail crawl. *)
Lemma review_window_runs_every_window (env : string -> ListingEnv) (retries : option nat)
    (reader : list SearchData.t) (cs : list Window.choice) (w w' : World)
    (l : Window.t) :
  run_schedule (review_window env retries reader) cs (Window.init (length reader), w)
  = Some (l, w') ->
  Window.finished reader l = true ->
  forall k, k < length reader -> Window.started l k.
Proof. apply finished_all_started. Qed.

(** ** The file loop *)

(** The main function can always make its next call of [processResults],
    wherever the crawls already started are. *)
Lemma file_loop_never_waits (env : string -> ListingEnv) (retries : option nat)
    (aggregateFiles : list string) (crawls : Details.t) (w : World) :
  length crawls < length aggregateFiles ->
  exists w',
    Details.step env retries aggregateFiles Details.Call (crawls, w)
    = Some (crawls ++ [Details.Reading], w').
Proof.
  intros Hlt. cbn [Details.step].
  destruct (lookup_lt_is_Some_2 aggregateFiles (length crawls) Hlt) as [file ->].
  by eexists.
Qed.

(** With two files or more, the crawl of the second can be started while the
    first has not read a row. *)
Lemma two_calls_in_a_row (env : string -> ListingEnv) (retries : option nat)
    (file1 file2 : string) (rest : list string) (w : World) :
  exists crawls w',
    run_schedule (Details.step env retries (file1 :: file2 :: rest))
      [Details.Call; Details.Call] ([], w) = Some (crawls, w') /\
    crawls = [Details.Reading; Details.Reading] /\
    ~ Details.sequenced crawls.
Proof.
  eexists _, _. split; [reflexivity | ]. split; [reflexivity | ].
  intros H. specialize (H 0 ltac:(cbn; lia)). discriminate H.
Qed.

(** * Further properties *)

(** ** DataPipeline: what its calls keep and write *)

Lemma reliable_next (w : World) : reliable w -> next_write_ok w.
Proof.
  unfold reliable, next_write_ok. intros H Hhead.
  destruct (faults w) as [ | b fs]; [done | ]. injection Hhead as ->.
  discriminate (H true). by left.
Qed.

Lemma reliable_tail (w : World) (fs : gmap string (list csv_line)) (t : list event) :
  reliable w -> reliable (mkWorld fs (tail (faults w)) t).
Proof.
  unfold reliable. cbn. intros H b Hb. apply H.
  destruct (faults w) as [ | b' rest]; [done | ]. by right.
Qed.

Lemma parse_app (flushed queue : list record) (header : bool) :
  parse flushed header ++ parse queue (header && negb (nonempty flushed))
  = parse (flushed ++ queue) header.
Proof.
  unfold parse. destruct flushed as [ | r flushed], header; cbn;
    rewrite ?map_app, <- ?app_assoc; done.
Qed.

Lemma existsSync_insert (f : string) (lines : list csv_line)
    (m : gmap string (list csv_line)) (fs : list bool) (t : list event) :
  existsSync f (mkWorld (<[f := lines]> m) fs t) = true.
Proof.
  unfold existsSync. cbn. apply bool_decide_eq_true_2.
  rewrite lookup_insert_eq. by eexists.
Qed.

(** A flush, exactly. *)
Lemma saveToCsv_cases (p : DataPipeline.t) (w : World) :
  let f := DataPipeline.csvFilename p in
  (DataPipeline.storageQueue p = [] /\
   DataPipeline.saveToCsv (p, w) = (Ok tt, (emptied p, w)))
  \/ (DataPipeline.storageQueue p <> [] /\ head (faults w) = Some true /\
      DataPipeline.saveToCsv (p, w)
      = (Throw "write failed",
         (emptied p, mkWorld (files w) (tail (faults w)) (trace w))))
  \/ (DataPipeline.storageQueue p <> [] /\ head (faults w) <> Some true /\
      DataPipeline.saveToCsv (p, w)
      = (Ok tt,
         (emptied p,
          mkWorld (<[f := content f w
                          ++ parse (DataPipeline.storageQueue p)
                               (negb (existsSync f w))]> (files w))
            (tail (faults w)) (trace w)))).
Proof.
  destruct p as [seen queue limit f]. unfold DataPipeline.saveToCsv, emptied. cbn.
  destruct queue as [ | d queue]; cbn; [by left | right].
  unfold in_world, appendFileSync. destruct w as [fs flt tr]. cbn.
  destruct flt as [ | [ | ] flt]; cbn; [right | left | right]; done.
Qed.

Lemma saveToCsv_flushed (f : string) (base : list csv_line) (existed : bool)
    (flushed : list record) (p : DataPipeline.t) (w : World) :
  flushed_inv f base existed flushed p w ->
  exists r w',
    DataPipeline.saveToCsv (p, w) = (r, (emptied p, w')) /\
    trace w' = trace w /\
    flushed_inv f base existed
      (if is_ok r then flushed ++ DataPipeline.storageQueue p else flushed)
      (emptied p) w' /\
    (reliable w -> is_ok r = true /\ reliable w').
Proof.
  intros (Hf & Hc & He). subst f. unfold flushed_inv.
  destruct (saveToCsv_cases p w) as [(Hq & E) | [(Hq & Hh & E) | (Hq & Hh & E)]];
    rewrite E; cbn [is_ok]; eexists _, _; (split; [reflexivity | ]).
  - rewrite Hq, app_nil_r. split; [done | ]. split; [done | ]. by intros.
  - split; [done | ]. split; [done | ].
    intros Hrel. by destruct (reliable_next w Hrel).
  - split; [done | ]. split.
    + split; [done | ]. rewrite content_insert, existsSync_insert, He, Hc.
      rewrite negb_orb, <- app_assoc, parse_app. split; [done | ].
      destruct (DataPipeline.storageQueue p); [done | ].
      destruct flushed; by rewrite orb_true_r.
    + intros Hrel. split; [done | ]. by apply reliable_tail.
Qed.

(** The records of a sequence of calls. *)
Lemma perform_flushed (f : string) (base : list csv_line) (existed : bool)
    (c : call) (flushed : list record) (p : DataPipeline.t) (w : World) :
  flushed_inv f base existed flushed p w ->
  exists r p' w' flushed',
    perform c (p, w) = (r, (p', w')) /\
    flushed_inv f base existed flushed' p' w' /\
    (reliable w ->
     r = Ok tt /\ reliable w' /\
     flushed' ++ DataPipeline.storageQueue p'
     = flushed ++ DataPipeline.storageQueue p
       ++ match c with
          | Add data =>
              if decide (record_name data ∈ DataPipeline.namesSeen p) then []
              else [data]
          | Close => []
          end).
Proof.
  intros Hinv. destruct c as [data | ]; cbn [perform].
  - destruct (decide (record_name data ∈ DataPipeline.namesSeen p)) as [Hin | Hin].
    + rewrite addData_duplicate by done. eexists _, _, _, flushed.
      split; [reflexivity | ]. split; [exact Hinv | ].
      intros Hrel. rewrite app_nil_r. done.
    + rewrite addData_fresh by done.
      assert (flushed_inv f base existed flushed (accepted data p) w) as Hinv'.
      { destruct Hinv as (? & ? & ?). done. }
      destruct (Nat.leb _ _).
      * destruct (saveToCsv_flushed _ _ _ _ _ _ Hinv') as (r & w' & E & _ & Hfl & Hrel).
        rewrite E. eexists _, _, _, _. split; [reflexivity | ]. split; [exact Hfl | ].
        intros Hw. destruct (Hrel Hw) as [Hr Hw']. destruct r as [[] | e]; [ | done].
        cbn. rewrite app_nil_r. done.
      * eexists _, _, _, flushed. split; [reflexivity | ]. split; [exact Hinv' | ].
        intros Hrel. done.
  - rewrite closePipeline_unfold.
    destruct (saveToCsv_flushed _ _ _ _ _ _ Hinv) as (r & w' & E & _ & Hfl & Hrel).
    rewrite E. eexists _, _, _, _. split; [reflexivity | ]. split; [exact Hfl | ].
    intros Hw. destruct (Hrel Hw) as [Hr Hw']. destruct r as [[] | e]; [ | done].
    cbn. rewrite !app_nil_r. done.
Qed.

(** The records given to [addData] by a sequence of calls. *)
Lemma perform_all_flushed (f : string) (base : list csv_line) (existed : bool)
    (cs : list call) (flushed : list record) (p : DataPipeline.t) (w : World) :
  flushed_inv f base existed flushed p w ->
  exists flushed',
    flushed_inv f base existed flushed'
      (perform_all cs (p, w)).1 (perform_all cs (p, w)).2.
Proof.
  revert flushed p w. induction cs as [ | c cs IH]; intros flushed p w Hinv.
  - by exists flushed.
  - cbn [perform_all].
    destruct (perform_flushed f base existed c flushed p w Hinv)
      as (r & p' & w' & flushed' & E & Hinv' & _).
    rewrite E. cbn [snd]. by apply (IH flushed').
Qed.

Lemma flushed_inv_init (f : string) (limit : option nat) (w : World) :
  flushed_inv f (content f w) (existsSync f w) [] (DataPipeline.constructor f limit) w.
Proof.
  split; [done | ]. rewrite parse_nil, app_nil_r, orb_false_r. done.
Qed.

(** X1. Over its whole lifetime, whatever the calls and whatever the sink
    does, a pipeline appends to its file what one serialization of the
    records it has flushed gives: data lines only when the file existed when
    the pipeline was made, and otherwise one header, first, followed by data
    lines only. *)
Theorem pipeline_writes_one_header (f : string) (limit : option nat) (cs : list call)
    (w : World) :
  exists flushed,
    content f (perform_all cs (DataPipeline.constructor f limit, w)).2
    = content f w ++ parse flushed (negb (existsSync f w)).
Proof.
  destruct (perform_all_flushed f _ _ cs [] _ w (flushed_inv_init f limit w))
    as (flushed & _ & Hc & _).
  by exists flushed.
Qed.

Lemma addData_reliable (f : string) (base : list csv_line) (existed : bool)
    (ds : list record) (flushed : list record) (p : DataPipeline.t) (w : World) :
  flushed_inv f base existed flushed p w ->
  reliable w ->
  exists p' w' flushed',
    for_of ds DataPipeline.addData (p, w) = (Ok tt, (p', w')) /\
    flushed_inv f base existed flushed' p' w' /\
    reliable w' /\
    flushed' ++ DataPipeline.storageQueue p'
    = flushed ++ DataPipeline.storageQueue p
      ++ accepted_of (DataPipeline.namesSeen p) ds.
Proof.
  revert flushed p w. induction ds as [ | d ds IH]; intros flushed p w Hinv Hrel.
  - exists p, w, flushed. cbn. rewrite app_nil_r. done.
  - rewrite for_of_cons.
    destruct (perform_flushed f base existed (Add d) flushed p w Hinv)
      as (r & p1 & w1 & flushed1 & E & Hinv1 & Hok).
    destruct (Hok Hrel) as (-> & Hrel1 & Hrows). cbn [perform] in E. rewrite E.
    destruct (IH flushed1 p1 w1 Hinv1 Hrel1) as (p' & w' & flushed' & E' & Hinv' & Hrel' & Hrows').
    exists p', w', flushed'. split; [done | ]. split; [done | ]. split; [done | ].
    rewrite Hrows'. rewrite (app_assoc flushed1), Hrows. cbn [accepted_of].
    destruct (decide (record_name d ∈ DataPipeline.namesSeen p)) as [Hin | Hin].
    + rewrite app_nil_r.
      rewrite addData_duplicate in E by done. injection E as <- _.
      by rewrite <- !app_assoc.
    + rewrite <- !app_assoc. do 2 f_equal. cbn. f_equal.
      rewrite addData_fresh in E by done.
      destruct (Nat.leb _ _).
      * destruct (saveToCsv_spec (accepted d p) w) as (r & w2 & E2 & _).
        rewrite E2 in E. by injection E as _ <- _.
      * by injection E as <- _.
Qed.

Lemma add_all_and_close (f : string) (limit : option nat)
    (ds : list record) (w : World) :
  reliable w ->
  exists p' w',
    (for_of ds DataPipeline.addData ;;; DataPipeline.closePipeline)
      (DataPipeline.constructor f limit, w)
    = (Ok tt, (p', w')) /\
    DataPipeline.storageQueue p' = [] /\
    reliable w' /\
    content f w' = content f w ++ parse (accepted_of ∅ ds) (negb (existsSync f w)).
Proof.
  intros Hrel. unfold bind.
  destruct (addData_reliable f _ _ ds [] _ w (flushed_inv_init f limit w) Hrel)
    as (p1 & w1 & flushed1 & E & Hinv1 & Hrel1 & Hrows).
  rewrite E.
  destruct (perform_flushed f _ _ Close flushed1 p1 w1 Hinv1)
    as (r & p' & w' & flushed' & E' & (_ & Hc & _) & Hok).
  destruct (Hok Hrel1) as (-> & Hrel' & Hrows'). cbn [perform] in E'. rewrite E'.
  rewrite closePipeline_unfold in E'.
  destruct (saveToCsv_spec p1 w1) as (r & w2 & E2 & _). rewrite E2 in E'.
  injection E' as _ <- _.
  exists (emptied p1), w'. split; [done | ]. split; [done | ]. split; [done | ].
  cbn in Hrows, Hrows'. rewrite !app_nil_r in Hrows'. rewrite Hrows in Hrows'.
  by rewrite Hc, Hrows'.
Qed.

(** X2. With a sink that accepts every write, giving a list of records to a
    new pipeline and closing it writes exactly the first record of each key,
    in the order given, after a header when the file is new; the call
    returns and the batch is empty. *)
Theorem pipeline_writes_first_occurrences (f : string) (limit : option nat)
    (ds : list record) (w : World) :
  reliable w ->
  exists p' w',
    (for_of ds DataPipeline.addData ;;; DataPipeline.closePipeline)
      (DataPipeline.constructor f limit, w)
    = (Ok tt, (p', w')) /\
    DataPipeline.storageQueue p' = [] /\
    content f w' = content f w ++ parse (accepted_of ∅ ds) (negb (existsSync f w)).
Proof.
  intros Hrel.
  destruct (add_all_and_close f limit ds w Hrel) as (p' & w' & E & Hq & _ & Hc).
  by exists p', w'.
Qed.

Lemma pipeline_writes_first_occurrences_witness :
  reliable empty_world /\
  exists p' w',
    (for_of [listing_A; listing_B; listing_A] DataPipeline.addData
     ;;; DataPipeline.closePipeline)
      (DataPipeline.constructor "out.csv" (Some 2), empty_world)
    = (Ok tt, (p', w')) /\
    content "out.csv" w'
    = [Header SearchData.columns; Row listing_A; Row listing_B].
Proof.
  assert (reliable empty_world) as Hrel.
  { intros b Hb. by apply not_elem_of_nil in Hb. }
  split; [exact Hrel | ].
  destruct (pipeline_writes_first_occurrences "out.csv" (Some 2)
              [listing_A; listing_B; listing_A] empty_world Hrel)
    as (p' & w' & E & _ & Hc).
  exists p', w'. split; [exact E | ]. rewrite Hc. reflexivity.
Defined.

Lemma perform_seen (c : call) (p : DataPipeline.t) (w : World) :
  DataPipeline.namesSeen (perform c (p, w)).2.1
  = DataPipeline.namesSeen p ∪ list_to_set (added_names [c]).
Proof.
  destruct c as [data | ]; cbn.
  - destruct (decide (record_name data ∈ DataPipeline.namesSeen p)) as [Hin | Hin].
    + rewrite addData_duplicate by done. cbn. set_solver.
    + rewrite addData_fresh by done. destruct (Nat.leb _ _).
      * destruct (saveToCsv_spec (accepted data p) w) as (r & w' & -> & _).
        cbn. set_solver.
      * cbn. set_solver.
  - rewrite closePipeline_unfold.
    destruct (saveToCsv_spec p w) as (r & w' & -> & _). cbn. set_solver.
Qed.

(** X3. After any sequence of calls, whatever each returned, the seen-set of
    a pipeline is what it was together with the key of every record given to
    [addData]: accepted, dropped as a duplicate, or lost in a failed flush. *)
Theorem seen_set_is_every_key_given (cs : list call) (p : DataPipeline.t) (w : World) :
  DataPipeline.namesSeen (perform_all cs (p, w)).1
  = DataPipeline.namesSeen p ∪ list_to_set (added_names cs).
Proof.
  revert p w. induction cs as [ | c cs IH]; intros p w.
  - cbn. set_solver.
  - cbn [perform_all]. destruct (perform c (p, w)) as [r [p' w']] eqn:E.
    cbn [snd]. rewrite IH. pose proof (perform_seen c p w) as Hc.
    rewrite E in Hc. cbn [fst snd] in Hc. rewrite Hc.
    destruct c as [data | ]; cbn; set_solver.
Qed.

Lemma perform_below_limit (c : call) (p : DataPipeline.t) (w : World) :
  length (DataPipeline.storageQueue p) <= DataPipeline.storageQueueLimit p - 1 ->
  length (DataPipeline.storageQueue (perform c (p, w)).2.1)
  <= DataPipeline.storageQueueLimit (perform c (p, w)).2.1 - 1 /\
  DataPipeline.storageQueueLimit (perform c (p, w)).2.1
  = DataPipeline.storageQueueLimit p.
Proof.
  intros Hlen. destruct c as [data | ]; cbn [perform].
  - destruct (decide (record_name data ∈ DataPipeline.namesSeen p)) as [Hin | Hin].
    + by rewrite addData_duplicate.
    + rewrite addData_fresh by done. rewrite length_app. cbn [length].
      destruct (Nat.leb_spec (DataPipeline.storageQueueLimit p)
                  (length (DataPipeline.storageQueue p) + 1)) as [Hle | Hlt].
      * destruct (saveToCsv_spec (accepted data p) w) as (r & w' & -> & _).
        cbn. split; [lia | done].
      * cbn. rewrite length_app. cbn. split; [lia | done].
  - rewrite closePipeline_unfold.
    destruct (saveToCsv_spec p w) as (r & w' & -> & _). cbn. split; [lia | done].
Qed.

(** X4. Between calls the batch of a pipeline never holds as many records as
    its limit: after any sequence of calls, whatever the sink does, it holds
    at most [limit - 1] records (none when the limit is zero), and the limit
    is the one the pipeline was made with, fifty by default. *)
Theorem batch_stays_below_limit (f : string) (limit : option nat) (cs : list call)
    (w : World) :
  let p' := (perform_all cs (DataPipeline.constructor f limit, w)).1 in
  length (DataPipeline.storageQueue p') <= default 50 limit - 1 /\
  DataPipeline.storageQueueLimit p' = default 50 limit.
Proof.
  cbn zeta.
  assert (forall p w,
             length (DataPipeline.storageQueue p) <= DataPipeline.storageQueueLimit p - 1 ->
             length (DataPipeline.storageQueue (perform_all cs (p, w)).1)
             <= DataPipeline.storageQueueLimit p - 1 /\
             DataPipeline.storageQueueLimit (perform_all cs (p, w)).1
             = DataPipeline.storageQueueLimit p) as Hgen.
  { induction cs as [ | c cs IH]; intros p w' Hlen; [done | ].
    cbn [perform_all]. destruct (perform_below_limit c p w' Hlen) as [H1 H2].
    destruct (perform c (p, w')) as [r [p1 w1]]. cbn [fst snd] in *.
    destruct (IH p1 w1 H1) as [H3 H4]. rewrite H2 in H3, H4. done. }
  apply (Hgen (DataPipeline.constructor f limit) w). cbn. lia.
Qed.

(** X5. When [addData] throws, the flush it started has failed: no file has
    changed, the batch is empty, and the key of the record is in the
    seen-set. Giving the same record to the pipeline again, in any later
    state of the world, is therefore dropped as a duplicate: the call
    returns, logs a warning and stores nothing. *)
Theorem addData_after_throw_is_dropped (data : record) (p p' : DataPipeline.t)
    (w w' : World) (error : string) :
  DataPipeline.addData data (p, w) = (Throw error, (p', w')) ->
  files w' = files w /\
  DataPipeline.storageQueue p' = [] /\
  forall w2,
    DataPipeline.addData data (p', w2)
    = (Ok tt,
       (p', logged (Log Warn ("Duplicate item found: " +:+ to_string (record_name data)
                              +:+ ". Item dropped.")) w2)).
Proof.
  intros E.
  destruct (decide (record_name data ∈ DataPipeline.namesSeen p)) as [Hin | Hin].
  - rewrite addData_duplicate in E by done. discriminate E.
  - rewrite addData_fresh in E by done.
    destruct (Nat.leb _ _); [ | discriminate E].
    destruct (saveToCsv_spec (accepted data p) w) as (r & w1 & E1 & _ & Hr).
    rewrite E1 in E. injection E as -> <- <-.
    destruct Hr as (Hf & _). split; [done | ]. split; [done | ].
    intros w2. apply addData_duplicate. cbn.
    apply elem_of_union_l. by apply elem_of_singleton.
Qed.

Lemma addData_after_throw_is_dropped_witness :
  let p := DataPipeline.mk ∅ [] 1 "out.csv" in
  exists p',
    DataPipeline.addData listing_A (p, failing_world)
    = (Throw "write failed", (p', empty_world)) /\
    DataPipeline.addData listing_A (p', empty_world)
    = (Ok tt,
       (p', logged (Log Warn "Duplicate item found: Condo A. Item dropped.")
              empty_world)).
Proof.
  intros p. eexists. split; [reflexivity | ].
  exact (proj2 (proj2 (addData_after_throw_is_dropped listing_A p _
                         failing_world empty_world "write failed" eq_refl))
           empty_world).
Defined.

(** ** Record classes *)

(** X6. Whatever its arguments, missing or not, every field of a SearchData
    is the argument trimmed when that is not blank and the placeholder of
    the field otherwise; no field is empty and none has white space at
    either end. *)
Theorem SearchData_fields_normalized (name description dates price url : option string) :
  let d := SearchData.constructor name description dates price url in
  let norm (x : option string) (placeholder : string) :=
    if decide (trim (default "" x) = "") then placeholder else trim (default "" x) in
  (SearchData.name d = norm name "No name" /\
   SearchData.description d = norm description "No description" /\
   SearchData.dates d = norm dates "No dates" /\
   SearchData.price d = norm price "No price" /\
   SearchData.url d = norm url "No url") /\
  (SearchData.name d <> "" /\ SearchData.description d <> "" /\
   SearchData.dates d <> "" /\ SearchData.price d <> "" /\ SearchData.url d <> "") /\
  (trimmed (SearchData.name d) /\ trimmed (SearchData.description d) /\
   trimmed (SearchData.dates d) /\ trimmed (SearchData.price d) /\
   trimmed (SearchData.url d)).
Proof.
  cbn zeta.
  pose proof (SearchData_normalized name description dates price url) as H.
  pose proof (SearchData_trimmed name description dates price url) as H'.
  cbn zeta in H, H'. destruct H as (? & ? & ? & ? & ? & ? & ? & ? & ? & ?).
  done.
Qed.

(** X7. A ReviewData made from two strings and a number keeps the number as
    it is. A string field is stored empty exactly when its argument is not
    empty but blank; an empty argument gives the placeholder of the field and
    any other argument is stored trimmed. Arguments left out give the
    placeholders and zero stars. *)
Theorem ReviewData_fields (name review : string) (stars : Z) :
  let d := ReviewData.constructor (JString name) (JNumber stars) (JString review) in
  ReviewData.stars d = JNumber stars /\
  (ReviewData.name d = JString "" <-> name <> "" /\ trim name = "") /\
  (ReviewData.review d = JString "" <-> review <> "" /\ trim review = "") /\
  (name = "" -> ReviewData.name d = JString "No name") /\
  (review = "" -> ReviewData.review d = JString "No review") /\
  (name <> "" -> ReviewData.name d = JString (trim name)) /\
  (review <> "" -> ReviewData.review d = JString (trim review)) /\
  ReviewData.constructor JUndefined JUndefined JUndefined
  = ReviewData.mk (JString "No name") (JNumber 0) (JString "No review").
Proof.
  cbn zeta. rewrite ReviewData_string_fields. cbn.
  split; [done | ].
  destruct (decide (name = "")) as [-> | Hn], (decide (review = "")) as [-> | Hr];
    cbn; repeat split; try done; try (intros [? ?]; done); try (intros [=]; done);
    try (intros [= ->]; done).
  all: try congruence.
  all: intros [_ ->]; done.
Qed.

Lemma ReviewData_fields_witness :
  let d := ReviewData.constructor (JString "  ") (JNumber 4) (JString "") in
  ReviewData.name d = JString "" /\ ReviewData.review d = JString "No review".
Proof.
  cbn zeta.
  destruct (ReviewData_fields "  " "" 4) as (_ & Hname & _ & _ & Hreview & _).
  split.
  - apply Hname. split; [discriminate | reflexivity].
  - apply Hreview. reflexivity.
Defined.

(** ** findPaginationUrls *)

(** X8. Whatever the page does and whatever the cap, discovery launches one
    browser, opens one page, navigates once, and closes the browser on every
    path; the only difference a failure makes to the trace is one error line
    before the browser is closed. No file is touched and the line
    "Pagination Links Collected" is logged even when nothing was collected. *)
Theorem findPaginationUrls_closes_browser (env : DiscoverEnv) (keyword : string)
    (pages : option Z) (w : World) :
  exists links w',
    findPaginationUrls env keyword pages w = (Ok links, w') /\
    files w' = files w /\ faults w' = faults w /\
    trace w'
    = trace w
      ++ [Launch; NewPage; Goto (search_url keyword)]
      ++ match discover_goto env, discover_links env with
         | None, Ok _ => []
         | Some error, _ | None, Throw error =>
             [Log Error ("Error fetching pagination URLs: " +:+ error)]
         end
      ++ [CloseBrowser; Log Info "Pagination Links Collected"].
Proof.
  unfold findPaginationUrls, bind, try, emit, modify, raise_if, of_result, ret, throw.
  destruct env as [[error | ] [paginationLinks | error']]; cbn;
    eexists _, _; (split; [reflexivity | ]); cbn; rewrite <- !app_assoc; done.
Qed.

(** X9. The cap is honoured only when it is positive. With a cap [P] of zero
    or less and a page that answers, [slice(0, P - 1)] counts from the end:
    the result is the first URL followed by all the pagination links but the
    last [1 - P], however many there are. *)
Theorem findPaginationUrls_nonpositive_cap (env : DiscoverEnv) (keyword : string)
    (P : Z) (paginationLinks : list string) (w : World) :
  (P <= 0)%Z ->
  discover_goto env = None ->
  discover_links env = Ok paginationLinks ->
  exists w',
    findPaginationUrls env keyword (Some P) w
    = (Ok (search_url keyword
             :: take (length paginationLinks - Z.to_nat (1 - P)) paginationLinks), w').
Proof.
  intros HP Hgoto Hlinks.
  unfold findPaginationUrls, bind, try, emit, modify, raise_if, of_result, ret, throw.
  rewrite Hgoto, Hlinks. cbn. eexists. do 2 f_equal. f_equal.
  unfold slice_to. destruct (Z.ltb_spec (P - 1) 0) as [_ | Hge]; [ | lia].
  f_equal. lia.
Qed.

Lemma findPaginationUrls_nonpositive_cap_witness :
  (0 <= 0)%Z /\
  exists w',
    findPaginationUrls five_links "Myrtle Beach" (Some 0%Z) empty_world
    = (Ok ["https://www.airbnb.com/s/Myrtle-Beach/homes"; "p2"; "p3"; "p4"; "p5"], w').
Proof.
  split; [reflexivity | ].
  destruct (findPaginationUrls_nonpositive_cap five_links "Myrtle Beach" 0
              ["p2"; "p3"; "p4"; "p5"; "p6"] empty_world
              (Z.le_refl 0) eq_refl eq_refl) as [w' E].
  exists w'. exact E.
Defined.

Lemma all_chars_app (ok : ascii -> bool) (s1 s2 : string) :
  all_chars ok (s1 +:+ s2) = all_chars ok s1 && all_chars ok s2.
Proof. induction s1 as [ | a s1 IH]; simpl; [done | by rewrite IH, andb_assoc]. Qed.

Lemma all_chars_impl (ok ok' : ascii -> bool) (s : string) :
  (forall a, ok a = true -> ok' a = true) ->
  all_chars ok s = true -> all_chars ok' s = true.
Proof.
  intros Himpl. induction s as [ | a s IH]; simpl; [done | ].
  intros [Ha Hs]%andb_true_iff. by rewrite (Himpl a Ha), IH.
Qed.

(** Replacing every [c] by a string of good characters leaves good
    characters only, when [c] was the only bad one. *)
Lemma replace_char_all_chars (ok : ascii -> bool) (c : ascii) (rep s : string) :
  all_chars ok rep = true ->
  all_chars (fun a => ok a || bool_decide (a = c)) s = true ->
  all_chars ok (replace_char c rep s) = true.
Proof.
  intros Hrep. induction s as [ | a s IH]; cbn [all_chars replace_char]; [done | ].
  intros [Ha Hs]%andb_true_iff. destruct (decide (a = c)) as [-> | Hne].
  - rewrite all_chars_app, Hrep. by apply IH.
  - cbn [all_chars]. rewrite orb_true_iff, bool_decide_eq_true in Ha.
    destruct Ha as [-> | ?]; [by apply IH | done].
Qed.

Lemma replace_spaces_all_chars (rep : string) (in_run : bool) (s : string) :
  all_chars (fun a => negb (isWhiteSpace a)) rep = true ->
  all_chars (fun a => negb (isWhiteSpace a)) (replace_spaces rep in_run s) = true.
Proof.
  intros Hrep. revert in_run.
  induction s as [ | a s IH]; intros in_run; cbn [all_chars replace_spaces]; [done | ].
  destruct (isWhiteSpace a) eqn:Ha.
  - destruct in_run; [apply IH | ]. rewrite all_chars_app, Hrep. apply IH.
  - cbn [all_chars]. rewrite Ha. apply IH.
Qed.

(** X10. Whatever the keyword, the URL of its first results page holds no
    space: every space of the keyword has become a dash. *)
Theorem search_url_has_no_space (keyword : string) :
  all_chars not_space (search_url keyword) = true.
Proof.
  unfold search_url. rewrite !all_chars_app.
  rewrite (replace_char_all_chars not_space " " "-"); [done | done | ].
  generalize (replace_comma_space "--" keyword). intros s.
  induction s as [ | a s IH]; simpl; [done | ]. rewrite IH, andb_true_r.
  unfold not_space. by destruct (bool_decide (a = " "%char)).
Qed.

(** X11. Whatever the name of a listing, the name of its review file holds
    no white space and no slash, and ends in ".csv". *)
Theorem review_filename_is_plain (row : SearchData.t) :
  all_chars plain_char (review_filename row) = true /\
  exists stem, review_filename row = stem +:+ ".csv".
Proof.
  unfold review_filename. split; [ | by eexists].
  rewrite all_chars_app.
  rewrite (replace_char_all_chars plain_char "/" "-"); [done | done | ].
  eapply all_chars_impl; [ | by apply (replace_spaces_all_chars "-" false)].
  intros a Ha. unfold plain_char. cbn beta in Ha. rewrite Ha.
  by destruct (bool_decide (a = "/"%char)).
Qed.

(** ** scrapeSearchResults: pages, reloads and a target that is down *)

Lemma is_reload_same (url : string) : is_reload url (Reload url) = true.
Proof. cbn. by apply bool_decide_eq_true_2. Qed.

Ltac count_pages :=
  repeat (rewrite count_app || rewrite count_cons || rewrite count_nil);
  rewrite ?is_goto_same, ?is_success_same, ?is_reload_same;
  cbn [is_goto is_reload is_error_log is_success is_warning is_new_page is_close_page
       success_log failure_log].

Lemma warning_not_reload (url : string) (e : event) :
  is_warning e = true -> is_reload url e = false.
Proof. by destruct e as [[ | | ] ? | | | | | | | | ]. Qed.

Lemma warning_not_new_page (e : event) : is_warning e = true -> is_new_page e = false.
Proof. by destruct e as [[ | | ] ? | | | | | | | | ]. Qed.

Lemma warning_not_close_page (e : event) : is_warning e = true -> is_close_page e = false.
Proof. by destruct e as [[ | | ] ? | | | | | | | | ]. Qed.

(** The loop opens and closes no page, and reloads once after each failed
    attempt; it throws exactly when a reload does. *)
Lemma scrape_while_pages (env : PageEnv) (url : string) (left tries : nat)
    (p : DataPipeline.t) (w : World) :
  exists r p' w' d,
    scrape_while env url left tries (p, w) = (r, (p', w')) /\
    trace w' = trace w ++ d /\
    count (is_reload url) d = count is_error_log d /\
    count is_new_page d = 0 /\
    count is_close_page d = 0 /\
    count is_error_log d <= left /\
    match r with
    | Ok _ => forall k, k < count is_error_log d -> reload_error env (tries + k) = None
    | Throw error =>
        1 <= count is_error_log d /\
        reload_error env (tries + count is_error_log d - 1) = Some error
    end.
Proof.
  revert tries p w. induction left as [ | left IH]; intros tries p w.
  - exists (Ok false), p, w, []. rewrite app_nil_r. cbn [scrape_while count]. unfold ret.
    repeat split; try done; try (intros k Hk; lia).
  - cbn [scrape_while]. unfold bind at 1. unfold try.
    destruct (scrape_attempt_spec env url tries p w)
      as (r1 & p1 & w1 & d1 & E1 & Ht1 & Hw1 & _).
    rewrite E1.
    pose proof (count_warnings (is_reload url) d1 (warning_not_reload url) Hw1) as Hr1.
    pose proof (count_warnings is_error_log d1 warning_not_error Hw1) as He1.
    pose proof (count_warnings is_new_page d1 warning_not_new_page Hw1) as Hn1.
    pose proof (count_warnings is_close_page d1 warning_not_close_page Hw1) as Hc1.
    destruct r1 as [[] | e]; cbn [is_ok] in Ht1; cbv beta iota zeta.
    + exists (Ok true), p1, w1, (Goto url :: d1 ++ [success_log url]).
      split; [reflexivity | ]. split; [done | ].
      count_pages. rewrite Hr1, He1, Hn1, Hc1.
      repeat split; try done; try lia; try (intros k Hk; lia).
    + rewrite app_nil_r in Ht1.
      unfold bind, in_world, emit, modify, raise_if. cbv beta iota zeta.
      change (Log Error _) with (failure_log url e).
      destruct (reload_error env tries) as [e' | ] eqn:Hreload; cbv beta iota zeta.
      * eexists (Throw e'), p1, _, (Goto url :: d1 ++ [failure_log url e; Reload url]).
        split; [reflexivity | ]. cbn [trace].
        split; [rewrite Ht1, <- !app_assoc; reflexivity | ].
        count_pages. rewrite Hr1, He1, Hn1, Hc1.
        repeat split; try done; try lia.
        rewrite <- Hreload. f_equal. lia.
      * destruct (IH (tries + 1) p1
                    (mkWorld (files w1) (faults w1)
                       ((trace w1 ++ [failure_log url e]) ++ [Reload url])))
          as (r & p' & w' & d & E & Ht & Hrel & Hnew & Hclose & Hle & Hr).
        unfold ret. cbn [files faults trace]. rewrite E.
        exists r, p', w', (Goto url :: d1 ++ [failure_log url e; Reload url] ++ d).
        split; [reflexivity | ].
        split; [rewrite Ht; cbn [trace]; rewrite Ht1, <- !app_assoc; reflexivity | ].
        count_pages. rewrite Hr1, He1, Hn1, Hc1.
        split; [lia | ]. split; [lia | ]. split; [lia | ]. split; [lia | ].
        destruct r as [success | e''].
        -- intros k Hk. destruct k as [ | k].
           ++ by rewrite Nat.add_0_r.
           ++ replace (tries + S k) with (tries + 1 + k) by lia. apply Hr. lia.
        -- destruct Hr as [Hone Hrel']. split; [lia | ].
           rewrite <- Hrel'. f_equal. lia.
Qed.

(** X12. [scrapeSearchResults] opens exactly one page and reloads it once
    after every failed attempt, the last one included. It closes the page
    when it returns and when it throws after its last attempt, but not when
    a reload throws: that error leaves the function at once and the page
    stays open. *)
Theorem scrapeSearchResults_page_lifecycle (env : PageEnv) (url : string)
    (retries : nat) (p : DataPipeline.t) (w : World) :
  exists r p' w' d,
    scrapeSearchResults env url retries (p, w) = (r, (p', w')) /\
    trace w' = trace w ++ d /\
    count is_new_page d = 1 /\
    count (is_reload url) d = count is_error_log d /\
    (count is_close_page d = 1 /\
     (forall k, k < count is_error_log d -> reload_error env k = None)
     \/ count is_close_page d = 0 /\
        exists error, r = Throw error /\
                      reload_error env (count is_error_log d - 1) = Some error).
Proof.
  unfold scrapeSearchResults, bind, in_world, emit, modify. cbv beta iota zeta.
  destruct (scrape_while_pages env url (S retries) 0 p
              (mkWorld (files w) (faults w) (trace w ++ [NewPage])))
    as (r & p' & w' & d & E & Ht & Hrel & Hnew & Hclose & _ & Hr).
  rewrite E. cbn [trace] in Ht. rewrite ?Nat.add_0_l in Hr.
  destruct r as [success | e]; unfold ret, throw; cbv beta iota zeta.
  - destruct success; eexists _, p', _, (NewPage :: d ++ [ClosePage]);
      (split; [reflexivity | ]); cbn [trace];
      (split; [rewrite Ht, <- !app_assoc; reflexivity | ]);
      count_pages; (split; [lia | ]); (split; [lia | ]); left;
      (split; [lia | ]); intros k Hk; apply Hr; lia.
  - exists (Throw e), p', w', (NewPage :: d).
    split; [reflexivity | ]. split; [rewrite Ht, <- !app_assoc; reflexivity | ].
    count_pages. split; [lia | ]. split; [lia | ]. right.
    split; [lia | ]. exists e. split; [done | ].
    destruct Hr as [_ Hr]. rewrite <- Hr. f_equal.
Qed.

Lemma scrape_attempt_target_down (env : PageEnv) (url : string) (tries : nat)
    (p : DataPipeline.t) (w : World) :
  fetch_fails env tries = true ->
  exists error,
    scrape_attempt env url tries (p, w) = (Throw error, (p, logged (Goto url) w)).
Proof.
  unfold scrape_attempt, fetch_fails, bind, in_world, emit, modify, raise_if, of_result,
    throw, ret.
  destruct (goto_error env tries) as [e | ]; cbv beta iota zeta.
  - intros _. by exists e.
  - destruct (evaluate_result env tries) as [items | e]; [done | ].
    intros _. by exists e.
Qed.

Lemma scrape_while_target_down (env : PageEnv) (url : string) (left tries : nat)
    (p : DataPipeline.t) (w : World) :
  (forall k, k < left -> fetch_fails env (tries + k) = true) ->
  exists r w',
    scrape_while env url left tries (p, w) = (r, (p, w')) /\
    r <> Ok true /\ files w' = files w /\ faults w' = faults w.
Proof.
  revert tries w. induction left as [ | left IH]; intros tries w Hall.
  - by exists (Ok false), w.
  - cbn [scrape_while]. unfold bind at 1. unfold try.
    destruct (scrape_attempt_target_down env url tries p w) as [e E].
    { rewrite <- (Nat.add_0_r tries). apply Hall. lia. }
    rewrite E. cbv beta iota zeta.
    unfold bind, in_world, emit, modify, raise_if, logged. cbv beta iota zeta.
    cbn [files faults trace].
    destruct (reload_error env tries) as [e' | ]; cbv beta iota zeta.
    + by eexists (Throw e'), _.
    + unfold ret.
      match goal with
      | |- context [scrape_while env url left (tries + 1) (p, ?w1)] =>
          destruct (IH (tries + 1) w1) as (r & w' & E' & Hr & Hf & Hfl)
      end.
      { intros k Hk. replace (tries + 1 + k) with (tries + S k) by lia. apply Hall. lia. }
      rewrite E'. by exists r, w'.
Qed.

(** X13. While the target is down, nothing reaches the pipeline: when the
    navigation or the extraction throws at each of the [retries + 1]
    attempts, [scrapeSearchResults] throws and leaves the pipeline, the
    files and the sink exactly as they were. *)
Theorem scrapeSearchResults_target_down (env : PageEnv) (url : string)
    (retries : nat) (p : DataPipeline.t) (w : World) :
  (forall k, k <= retries -> fetch_fails env k = true) ->
  exists error w',
    scrapeSearchResults env url retries (p, w) = (Throw error, (p, w')) /\
    files w' = files w /\ faults w' = faults w.
Proof.
  intros Hall.
  unfold scrapeSearchResults, bind, in_world, emit, modify. cbv beta iota zeta.
  destruct (scrape_while_target_down env url (S retries) 0 p
              (mkWorld (files w) (faults w) (trace w ++ [NewPage])))
    as (r & w' & E & Hr & Hf & Hfl).
  { intros k Hk. apply Hall. lia. }
  rewrite E. destruct r as [[ | ] | e]; [done | | ]; unfold ret, throw;
    cbv beta iota zeta; by eexists _, _.
Qed.

Lemma scrapeSearchResults_target_down_witness :
  (forall k, k <= 2 -> fetch_fails always_timeout k = true) /\
  exists error w',
    scrapeSearchResults always_timeout "https://a" 2 (pipeline_with_A, empty_world)
    = (Throw error, (pipeline_with_A, w')) /\
    files w' = files empty_world.
Proof.
  assert (forall k, k <= 2 -> fetch_fails always_timeout k = true) as Hall.
  { intros k _. reflexivity. }
  split; [exact Hall | ].
  destruct (scrapeSearchResults_target_down always_timeout "https://a" 2
              pipeline_with_A empty_world Hall) as (error & w' & E & Hf & _).
  exists error, w'. split; [exact E | exact Hf].
Defined.

(** ** processListing: every path *)

(** The cards of one attempt: warnings only in the trace. *)
Lemma save_reviews_trace (reviewCards : list review_card) (p : DataPipeline.t)
    (w : World) :
  exists r p' w' d,
    save_reviews reviewCards (p, w) = (r, (p', w')) /\
    trace w' = trace w ++ d /\
    Forall (fun e => is_warning e = true) d.
Proof.
  unfold save_reviews. unfold bind at 1.
  assert (exists r p' w' d,
             for_of reviewCards
               (fun reviewCard =>
                  do reviewData <- read_review reviewCard ;;
                  DataPipeline.addData (RReview reviewData)) (p, w)
             = (r, (p', w')) /\
             trace w' = trace w ++ d /\
             Forall (fun e => is_warning e = true) d) as (r & p1 & w1 & d1 & E & Ht & Hw).
  { revert p w. induction reviewCards as [ | c cards IH]; intros p w.
    - exists (Ok tt), p, w, []. by rewrite app_nil_r.
    - rewrite for_of_cons. unfold bind at 1.
      destruct c as [e | nameElement stars reviewElement]; cbn [read_review].
      + exists (Throw e), p, w, []. by rewrite app_nil_r.
      + unfold ret at 1. cbv beta iota zeta.
        match goal with
        | |- context [DataPipeline.addData ?data (p, w)] =>
            destruct (addData_trace data p w)
              as (r1 & p1 & w1 & d1 & E1 & Ht1 & Hw1 & _)
        end.
        rewrite E1. destruct r1 as [[] | e].
        * destruct (IH p1 w1) as (r & p' & w' & d & E & Ht & Hw).
          rewrite E. exists r, p', w', (d1 ++ d).
          split; [done | ]. split; [by rewrite Ht, Ht1, app_assoc | ].
          by apply Forall_app.
        * by exists (Throw e), p1, w1, d1. }
  rewrite E. destruct r as [[] | e].
  - rewrite closePipeline_unfold.
    destruct (saveToCsv_spec p1 w1) as (r & w' & E' & Ht' & _).
    rewrite E'. exists r, (emptied p1), w', d1. by rewrite Ht'.
  - by exists (Throw e), p1, w1, d1.
Qed.

(** One attempt on a listing: one line, one navigation, then warnings. *)
Lemma listing_attempt_trace (env : ListingEnv) (row : SearchData.t) (tries : nat)
    (w : World) :
  exists r w' message d,
    listing_attempt env row tries w = (r, w') /\
    trace w' = trace w ++ Log Info message :: Goto (SearchData.url row) :: d /\
    Forall (fun e => is_warning e = true) d.
Proof.
  unfold listing_attempt, bind, emit, modify, raise_if, of_result, throw, ret.
  cbv beta iota zeta. cbn [files faults trace].
  destruct (listing_goto_error env tries) as [e | ].
  { eexists (Throw e), _, _, []. split; [reflexivity | ]. cbn [trace].
    by rewrite <- app_assoc. }
  destruct (listing_cards env tries) as [cards | e].
  2: { eexists (Throw e), _, _, []. split; [reflexivity | ]. cbn [trace].
       by rewrite <- app_assoc. }
  unfold with_pipeline.
  match goal with
  | |- context [save_reviews cards (?p, ?w1)] =>
      destruct (save_reviews_trace cards p w1) as (r & p' & w' & d & E & Ht & Hw)
  end.
  rewrite E. eexists r, w', _, d. split; [reflexivity | ].
  rewrite Ht. cbn [trace]. by rewrite <- !app_assoc.
Qed.

Lemma listing_while_pages (env : ListingEnv) (row : SearchData.t)
    (retries left tries : nat) (w : World) :
  exists w' d,
    listing_while env row retries left tries w = (Ok tt, w') /\
    trace w' = trace w ++ d /\
    count is_new_page d = 0 /\ count is_close_page d = 0 /\
    count (is_goto (SearchData.url row)) d <= left.
Proof.
  revert tries w. induction left as [ | left IH]; intros tries w.
  - exists w, []. by rewrite app_nil_r.
  - cbn [listing_while]. unfold bind at 1. unfold try.
    destruct (listing_attempt_trace env row tries w) as (r & w1 & m & d1 & E & Ht & Hw).
    rewrite E. cbv beta iota zeta.
    pose proof (count_warnings (is_goto (SearchData.url row)) d1
                  (warning_not_goto _) Hw) as Hg1.
    pose proof (count_warnings is_new_page d1 warning_not_new_page Hw) as Hn1.
    pose proof (count_warnings is_close_page d1 warning_not_close_page Hw) as Hc1.
    destruct r as [[] | e].
    + exists w1, (Log Info m :: Goto (SearchData.url row) :: d1).
      split; [done | ]. split; [done | ]. count_pages. rewrite Hg1, Hn1, Hc1. lia.
    + unfold bind, emit, modify. cbv beta iota zeta. cbn [files faults trace].
      set (console := ConsoleError _).
      destruct (Nat.leb retries (tries + 1)).
      * eexists _, (Log Info m :: Goto (SearchData.url row) :: d1
                      ++ [console; max_retries_log (SearchData.url row)]).
        split; [reflexivity | ]. cbn [trace].
        split; [rewrite Ht, <- !app_assoc; reflexivity | ].
        count_pages. rewrite Hg1, Hn1, Hc1. subst console. unfold max_retries_log.
        cbn. lia.
      * destruct (IH (tries + 1)
                    (mkWorld (files w1) (faults w1) (trace w1 ++ [console])))
          as (w' & d & E' & Ht' & Hn & Hc & Hg).
        rewrite E'. exists w', (Log Info m :: Goto (SearchData.url row) :: d1
                                  ++ [console] ++ d).
        split; [done | ]. cbn [trace] in Ht'.
        split; [rewrite Ht', Ht, <- !app_assoc; reflexivity | ].
        count_pages. rewrite Hg1, Hn1, Hc1, Hn, Hc. subst console. cbn. lia.
Qed.

(** X14. Whatever the listing page and the sink do, [processListing]
    returns: no failure leaves it. It opens one page first and closes it
    last, on every path, and navigates at most [retries] times (three by
    default) where [scrapeSearchResults] makes [retries + 1] attempts; with
    zero retries the row is passed over without a navigation. *)
Theorem processListing_always_returns (env : ListingEnv) (row : SearchData.t)
    (retries : option nat) (w : World) :
  exists w' d,
    processListing env row retries w = (Ok tt, w') /\
    trace w' = trace w ++ NewPage :: d ++ [ClosePage] /\
    count is_new_page d = 0 /\ count is_close_page d = 0 /\
    count (is_goto (SearchData.url row)) d <= default 3 retries.
Proof.
  unfold processListing, bind, emit, modify. cbv beta iota zeta.
  destruct (listing_while_pages env row (default 3 retries) (default 3 retries) 0
              (mkWorld (files w) (faults w) (trace w ++ [NewPage])))
    as (w' & d & E & Ht & Hn & Hc & Hg).
  rewrite E. eexists _, d. split; [reflexivity | ]. cbn [trace] in *.
  split; [rewrite Ht, <- !app_assoc; reflexivity | done].
Qed.

(** ** processListing: an attempt that succeeds *)

Lemma for_of_reviews_readable (reviewCards : list review_card)
    (s : DataPipeline.t * World) :
  existsb is_throw reviewCards = false ->
  for_of reviewCards
    (fun reviewCard =>
       do reviewData <- read_review reviewCard ;;
       DataPipeline.addData (RReview reviewData)) s
  = for_of (reviews_before_throw reviewCards) DataPipeline.addData s.
Proof.
  revert s. induction reviewCards as [ | c cards IH]; intros s Hex; [done | ].
  cbn [existsb] in Hex. apply orb_false_iff in Hex as [Hc Hex].
  destruct c as [e | nameElement stars reviewElement]; [done | ].
  cbn [reviews_before_throw read_review]. unfold ret at 1. cbv beta iota zeta.
  rewrite !for_of_cons. unfold bind at 1. cbn [read_review]. unfold ret at 1.
  cbv beta iota zeta.
  destruct (DataPipeline.addData _ s) as [[[] | e] s']; [by apply IH | done].
Qed.

Lemma listing_attempt_succeeds (env : ListingEnv) (row : SearchData.t) (tries : nat)
    (reviewCards : list review_card) (w : World) :
  listing_goto_error env tries = None ->
  listing_cards env tries = Ok reviewCards ->
  existsb is_throw reviewCards = false ->
  reliable w ->
  exists w',
    listing_attempt env row tries w = (Ok tt, w') /\
    reliable w' /\
    content (review_filename row) w'
    = content (review_filename row) w
      ++ parse (accepted_of ∅ (reviews_before_throw reviewCards))
           (negb (existsSync (review_filename row) w)).
Proof.
  intros Hgoto Hcards Hex Hrel.
  unfold listing_attempt, bind, emit, modify, raise_if, of_result, throw, ret.
  rewrite Hgoto, Hcards. cbv beta iota zeta. cbn [files faults trace].
  unfold with_pipeline, save_reviews.
  match goal with
  | |- context [bind _ _ (?p, ?w1)] =>
      destruct (add_all_and_close (review_filename row) None
                  (reviews_before_throw reviewCards) w1)
        as (p' & w' & E & _ & Hrel' & Hc); [exact Hrel | ]
  end.
  unfold bind in E |- *. rewrite for_of_reviews_readable by done.
  rewrite E. by exists w'.
Qed.

(** X15. When the first attempt on a listing reaches the page, reads every
    card and the sink accepts the writes, [processListing] returns after one
    navigation and no error line, and the review file of the listing has
    gained the first review of each reviewer name, in page order, after a
    header when the file is new. Reviews under a name already met on the
    page are not written. *)
Theorem processListing_first_attempt_succeeds (env : ListingEnv) (row : SearchData.t)
    (retries : option nat) (reviewCards : list review_card) (w : World) :
  0 < default 3 retries ->
  listing_goto_error env 0 = None ->
  listing_cards env 0 = Ok reviewCards ->
  existsb is_throw reviewCards = false ->
  reliable w ->
  exists w' d,
    processListing env row retries w = (Ok tt, w') /\
    trace w' = trace w ++ d /\
    count (is_goto (SearchData.url row)) d = 1 /\
    count is_error_log d = 0 /\
    content (review_filename row) w'
    = content (review_filename row) w
      ++ parse (accepted_of ∅ (reviews_before_throw reviewCards))
           (negb (existsSync (review_filename row) w)).
Proof.
  intros Hpos Hgoto Hcards Hex Hrel.
  unfold processListing, bind at 1, emit, modify. cbv beta iota zeta.
  destruct (default 3 retries) as [ | left] eqn:Hretries; [lia | ].
  cbn [listing_while]. unfold bind. unfold try.
  match goal with
  | |- context [listing_attempt env row 0 ?w1] =>
      destruct (listing_attempt_succeeds env row 0 reviewCards w1 Hgoto Hcards Hex)
        as (w2 & E & _ & Hc); [exact Hrel | ];
      destruct (listing_attempt_trace env row 0 w1) as (r & w2' & m & d & E' & Ht & Hw)
  end.
  rewrite E in E'. injection E' as <- <-. rewrite E. cbv beta iota zeta.
  unfold ret, modify. cbv beta iota zeta.
  eexists _, (NewPage :: Log Info m :: Goto (SearchData.url row) :: d ++ [ClosePage]).
  split; [reflexivity | ]. cbn [trace files] in *.
  split; [rewrite Ht, <- !app_assoc; reflexivity | ].
  count_pages.
  rewrite (count_warnings _ d (warning_not_goto _) Hw),
    (count_warnings _ d warning_not_error Hw).
  split; [lia | ]. split; [lia | ]. exact Hc.
Qed.

Lemma processListing_first_attempt_succeeds_witness :
  reliable empty_world /\
  exists w',
    processListing unsigned_reviews row_A None empty_world = (Ok tt, w') /\
    rows_of (content "Condo-A.csv" w')
    = [RReview (ReviewData.mk (JString "Ann") (JNumber 1) (JString "Lovely"));
       RReview (ReviewData.mk (JString "Unknown") (JNumber 1) (JString "Quiet"))].
Proof.
  assert (reliable empty_world) as Hrel.
  { intros b Hb. by apply not_elem_of_nil in Hb. }
  split; [exact Hrel | ].
  destruct (processListing_first_attempt_succeeds unsigned_reviews row_A None _
              empty_world (le_S 1 2 (le_S 1 1 (le_n 1))) eq_refl eq_refl eq_refl Hrel)
    as (w' & d & E & _ & _ & _ & Hc).
  exists w'. split; [exact E | ].
  change (review_filename row_A) with "Condo-A.csv" in Hc.
  rewrite Hc. reflexivity.
Defined.

(** X16. Reading a card that does not throw always gives a review, and
    leaves the state as it is. Its stars are a number, the count of the
    card's [svg] elements with the filled colour: never negative and at most
    the number of [svg] elements. A card without [h3] is signed "Unknown",
    not the placeholder of the class, and a card without [span] has the
    review "No review". *)
Theorem read_review_fields {St} (nameElement : option string) (stars : list string)
    (reviewElement : option string) (st : St) :
  exists d n,
    read_review (Card nameElement stars reviewElement) st = (Ok d, st) /\
    ReviewData.stars d = JNumber (Z.of_nat n) /\
    n = length (filter (fun color => color = "rgb(34, 34, 34)") stars) /\
    n <= length stars /\
    (nameElement = None -> ReviewData.name d = JString "Unknown") /\
    (reviewElement = None -> ReviewData.review d = JString "No review").
Proof.
  cbn [read_review]. unfold ret. eexists _, _. split; [reflexivity | ].
  rewrite ReviewData_string_fields. cbn [ReviewData.stars ReviewData.name ReviewData.review].
  split; [reflexivity | ]. split; [reflexivity | ].
  split; [apply length_filter | ].
  split; intros ->; reflexivity.
Qed.

(** ** The windowed loops: progress, termination and the calls in flight *)

Section WindowProgress.
Context {T St : Type}.
Variable task : T -> M St unit.
Variable limit : nat.
Variable on_catch : string -> M St unit.
Variable items : list T.

Lemma step_tidy (c : Window.choice) (l l' : Window.t) (st st' : St) :
  Window.step task limit on_catch items c (l, st) = Some (l', st') ->
  tidy limit (length items) l -> tidy limit (length items) l'.
Proof.
  unfold tidy, frontier.
  intros Hstep (Hlen & Hout & Hwin). destruct c as [ | k | ]; cbn [Window.step] in Hstep.
  - destruct (Window.awaiting l) eqn:Ha; [done | ]. cbn [negb andb] in Hstep.
    destruct (Nat.ltb (Window.i l) (length items)); [ | done].
    injection Hstep as <- <-. cbn. rewrite start_length.
    split; [done | ]. split.
    + intros k s Hs Hk. rewrite start_lookup in Hs. case_decide; [lia | ].
      apply (Hout k s Hs). lia.
    + intros _ _ k s Hs Hk. rewrite start_lookup in Hs. case_decide.
      * injection Hs as <-. by left.
      * apply lookup_lt_Some in Hs. lia.
  - destruct (items !! k) as [item | ]; [ | done].
    destruct (Window.tasks l !! k) as [[ | | | ] | ] eqn:Hk; try done.
    assert (k < Window.i l + (if Window.awaiting l then limit else 0)) as Hfront.
    { destruct (decide (k < Window.i l + (if Window.awaiting l then limit else 0)));
        [done | ].
      by discriminate (Hout k _ Hk ltac:(lia)). }
    destruct (task item st) as [[[] | e] st1]; injection Hstep as <- <-; cbn;
      rewrite length_insert; (split; [done | ]); split.
    + intros k' s Hs Hk'. rewrite list_lookup_insert in Hs. case_decide; [lia | ].
      by apply (Hout k' s).
    + intros Ha Hrej k' s Hs Hk'. rewrite list_lookup_insert in Hs. case_decide.
      * injection Hs as <-. by right.
      * by apply (Hwin Ha Hrej k' s).
    + intros k' s Hs Hk'. rewrite list_lookup_insert in Hs. case_decide; [lia | ].
      by apply (Hout k' s).
    + intros Ha Hrej k' s Hs Hk'. rewrite list_lookup_insert in Hs.
      destruct (Window.rejection l) as [e0 | ] eqn:Hrej0; [done | ].
      unfold Window.in_window in Hrej.
      case_decide.
      * destruct H as [-> _].
        destruct (Nat.leb_spec (Window.i l) k'); [ | lia].
        destruct (Nat.ltb_spec k' (Window.i l + limit)); [done | lia].
      * by apply (Hwin Ha eq_refl k' s).
  - destruct (Window.awaiting l) eqn:Ha; [ | done].
    destruct (Window.rejection l) as [e | ].
    + destruct (on_catch e st) as [r st1]. injection Hstep as <- <-. cbn.
      split; [done | ]. split; [ | done].
      intros k s Hs Hk. apply (Hout k s Hs). lia.
    + destruct (Window.all_fulfilled limit l); [ | done].
      injection Hstep as <- <-. cbn.
      split; [done | ]. split; [ | done].
      intros k s Hs Hk. apply (Hout k s Hs). lia.
Qed.

Lemma init_tidy : tidy limit (length items) (Window.init (length items)).
Proof.
  split; [cbn; by rewrite length_replicate | ]. split; [ | done].
  intros k s Hs _. cbn in Hs. by apply lookup_replicate in Hs as [-> _].
Qed.

Lemma run_tidy (cs : list Window.choice) (l l' : Window.t) (st st' : St) :
  run_schedule (Window.step task limit on_catch items) cs (l, st) = Some (l', st') ->
  tidy limit (length items) l -> tidy limit (length items) l'.
Proof.
  revert l st. induction cs as [ | c cs IH]; intros l st Hrun Hinv;
    cbn [run_schedule] in Hrun.
  - injection Hrun as H1 H2. by subst.
  - destruct (Window.step task limit on_catch items c (l, st)) as [[l1 st1] | ] eqn:Hstep;
      [ | done].
    eapply IH; [exact Hrun | ]. by eapply step_tidy.
Qed.

(** X17. A windowed loop cannot get stuck: in every state a schedule can
    reach, whatever the calls did, either the loop has left its last
    iteration or some step is enabled (starting the next window, settling a
    pending call, or resuming after the [await]). *)
Theorem window_loop_never_stuck (cs : list Window.choice) (l : Window.t) (st st' : St) :
  run_schedule (Window.step task limit on_catch items) cs
    (Window.init (length items), st) = Some (l, st') ->
  Window.finished items l = true \/
  exists c s', Window.step task limit on_catch items c (l, st') = Some s'.
Proof.
  intros Hrun. destruct (run_tidy cs _ _ _ _ Hrun init_tidy) as (Hlen & Hout & Hwin).
  unfold Window.finished.
  destruct (Window.awaiting l) eqn:Ha; cbn [negb andb].
  - right. destruct (Window.rejection l) as [e | ] eqn:Hrej.
    + exists Window.Resume. cbn [Window.step]. rewrite Ha, Hrej.
      destruct (on_catch e st') as [r st1]. by eexists.
    + destruct (Window.all_fulfilled limit l) eqn:Hall.
      * exists Window.Resume. cbn [Window.step]. rewrite Ha, Hrej, Hall. by eexists.
      * unfold Window.all_fulfilled, Window.window in Hall.
        assert (exists s, s ∈ take limit (drop (Window.i l) (Window.tasks l))
                          /\ s <> Window.Fulfilled) as (s & Hin & Hs).
        { revert Hall. generalize (take limit (drop (Window.i l) (Window.tasks l))).
          intros ss. induction ss as [ | s ss IH]; cbn [forallb]; [done | ].
          intros [Hs | Hss]%andb_false_iff.
          - exists s. split; [by left | ]. by apply bool_decide_eq_false in Hs.
          - destruct (IH Hss) as (s' & ? & ?). exists s'. split; [by right | done]. }
        apply list_elem_of_lookup in Hin as [j Hj].
        pose proof (lookup_lt_Some _ _ _ Hj) as Hjlen. rewrite length_take in Hjlen.
        rewrite lookup_take_lt, lookup_drop in Hj by lia.
        destruct (Hwin eq_refl eq_refl _ _ Hj ltac:(lia)) as [-> | ->]; [ | done].
        exists (Window.Settle (Window.i l + j)). cbn [Window.step].
        destruct (lookup_lt_is_Some_2 items (Window.i l + j)) as [item Hitem].
        { apply lookup_lt_Some in Hj. lia. }
        rewrite Hitem, Hj. destruct (task item st') as [[[] | e] st1]; by eexists.
  - destruct (Nat.leb_spec (length items) (Window.i l)) as [Hle | Hlt]; [by left | ].
    right. exists Window.Spawn. cbn [Window.step]. rewrite Ha. cbn [negb andb].
    destruct (Nat.ltb_spec (Window.i l) (length items)); [by eexists | lia].
Qed.

End WindowProgress.

Lemma weight_insert (ts : list Window.status) (k : nat) (s x : Window.status) :
  ts !! k = Some s ->
  total_weight (<[k := x]> ts) + weight s
  = total_weight ts + weight x.
Proof.
  revert k. induction ts as [ | t ts IH]; intros k Hk; [done | ].
  destruct k as [ | k]; cbn in Hk.
  - injection Hk as ->. cbn -[weight]. lia.
  - specialize (IH k Hk). cbn -[weight]. rewrite <- !Nat.add_assoc. f_equal. exact IH.
Qed.

Lemma weight_start_from (i a len : nat) (ts : list Window.status) :
  (forall k s, ts !! k = Some s -> i + a <= k -> s = Window.NotStarted) ->
  total_weight (foldl (fun ts j => <[i + j := Window.Pending]> ts) ts (seq a len))
  <= total_weight ts /\
  (0 < len -> i + a < length ts ->
   total_weight (foldl (fun ts j => <[i + j := Window.Pending]> ts) ts (seq a len))
   + 2 <= total_weight ts).
Proof.
  revert a ts. induction len as [ | len IH]; intros a ts Hout; cbn [seq foldl].
  - split; [done | lia].
  - destruct (IH (S a) (<[i + a := Window.Pending]> ts)) as [Hle Hlt].
    { intros k s Hs Hk. rewrite list_lookup_insert_ne in Hs by lia.
      apply (Hout k s Hs). lia. }
    destruct (decide (i + a < length ts)) as [Hin | Hnot].
    + destruct (lookup_lt_is_Some_2 ts (i + a) Hin) as [s Hs].
      pose proof (Hout _ _ Hs ltac:(lia)) as ->.
      pose proof (weight_insert ts (i + a) _ Window.Pending Hs) as Hw. cbn in Hw.
      split; [lia | ]. intros _ _. lia.
    + rewrite list_insert_ge in Hle |- * by lia. split; [done | ]. intros _ ?. lia.
Qed.

Lemma weight_replicate (n : nat) :
  total_weight (replicate n Window.NotStarted) = 3 * n.
Proof. induction n as [ | n IH]; cbn [replicate total_weight weight] in *; lia. Qed.

Section WindowTermination.
Context {T St : Type}.
Variable task : T -> M St unit.
Variable limit : nat.
Variable on_catch : string -> M St unit.
Variable items : list T.

Lemma step_potential (c : Window.choice) (l l' : Window.t) (st st' : St) :
  0 < limit ->
  tidy limit (length items) l ->
  Window.step task limit on_catch items c (l, st) = Some (l', st') ->
  potential l' < potential l.
Proof.
  unfold potential. intros Hlimit (Hlen & Hout & _) Hstep.
  destruct c as [ | k | ]; cbn [Window.step] in Hstep.
  - destruct (Window.awaiting l) eqn:Ha; [done | ]. cbn [negb andb] in Hstep.
    destruct (Nat.ltb_spec (Window.i l) (length items)) as [Hi | ]; [ | done].
    injection Hstep as <- <-. cbn. unfold Window.start.
    destruct (weight_start_from (Window.i l) 0 limit (Window.tasks l)) as [_ Hlt].
    { intros k s Hs Hk. apply (Hout k s Hs). unfold frontier. rewrite Ha. lia. }
    specialize (Hlt Hlimit ltac:(lia)). lia.
  - destruct (items !! k) as [item | ]; [ | done].
    destruct (Window.tasks l !! k) as [[ | | | ] | ] eqn:Hk; try done.
    destruct (task item st) as [[[] | e] st1]; injection Hstep as <- <-; cbn.
    + pose proof (weight_insert _ _ _ Window.Fulfilled Hk) as Hw. cbn in Hw. lia.
    + pose proof (weight_insert _ _ _ Window.Rejected Hk) as Hw. cbn in Hw. lia.
  - destruct (Window.awaiting l) eqn:Ha; [ | done].
    destruct (Window.rejection l) as [e | ].
    + destruct (on_catch e st) as [r st1]. injection Hstep as <- <-. cbn. lia.
    + destruct (Window.all_fulfilled limit l); [ | done].
      injection Hstep as <- <-. cbn. lia.
Qed.

Lemma run_potential (cs : list Window.choice) (l l' : Window.t) (st st' : St) :
  0 < limit ->
  tidy limit (length items) l ->
  run_schedule (Window.step task limit on_catch items) cs (l, st) = Some (l', st') ->
  length cs + potential l' <= potential l.
Proof.
  intros Hlimit. revert l st. induction cs as [ | c cs IH]; intros l st Hinv Hrun;
    cbn [run_schedule] in Hrun.
  - injection Hrun as H1 H2. subst. cbn. lia.
  - destruct (Window.step task limit on_catch items c (l, st)) as [[l1 st1] | ] eqn:Hstep;
      [ | done].
    pose proof (step_potential c l l1 st st1 Hlimit Hinv Hstep).
    pose proof (step_tidy task limit on_catch items c l l1 st st1 Hstep Hinv) as Hinv1.
    specialize (IH l1 st1 Hinv1 Hrun). cbn [length]. lia.
Qed.

(** X18. With a window size of at least one, a windowed loop over [n] items
    ends under every schedule, whatever the calls do: no run takes more than
    [3 * n] steps (each call is started once and settles once, and the loop
    resumes once per window). *)
Theorem window_loop_terminates (cs : list Window.choice) (l : Window.t) (st st' : St) :
  0 < limit ->
  run_schedule (Window.step task limit on_catch items) cs
    (Window.init (length items), st) = Some (l, st') ->
  length cs <= 3 * length items.
Proof.
  intros Hlimit Hrun.
  pose proof (run_potential cs _ _ _ _ Hlimit (init_tidy limit items) Hrun) as H.
  unfold potential in H at 2. cbn in H. rewrite weight_replicate in H. lia.
Qed.

End WindowTermination.

(** X19. With a window size of zero the loop never ends and never starts a
    call: over a list that is not empty, starting an empty window and
    resuming brings the loop back to its first state, as many times as one
    likes, and that state is not the end of the loop. *)
Theorem window_of_zero_spins {T St : Type} (task : T -> M St unit)
    (on_catch : string -> M St unit) (items : list T) (st : St) (m : nat) :
  items <> [] ->
  run_schedule (Window.step task 0 on_catch items) (spawn_resume m)
    (Window.init (length items), st) = Some (Window.init (length items), st) /\
  Window.finished items (Window.init (length items)) = false.
Proof.
  intros Hne. destruct items as [ | item items]; [done | ]. split; [ | done].
  induction m as [ | m IH]; [done | ].
  cbn [spawn_resume run_schedule]. exact IH.
Qed.




(** ** processResults: files without rows, and the end of a file *)

Section FileLoop.
Variable env : string -> ListingEnv.
Variable retries : option nat.
Variable aggregateFiles : list string.

(** X21. A file without data rows is done without a page: once its stream
    has ended, the crawl can finish at once, closing its browser and logging
    "Processing complete."; no call of [processListing] is made. *)
Theorem file_without_rows_completes (crawls : Details.t) (w : World) (k : nat)
    (file : string) (lines : list csv_line) :
  crawls !! k = Some Details.Reading ->
  aggregateFiles !! k = Some file ->
  files w !! file = Some lines ->
  readCsv lines = [] ->
  run_schedule (Details.step env retries aggregateFiles)
    [Details.StreamEnd k; Details.Finish k] (crawls, w)
  = Some (<[k := Details.Complete]> crawls,
          mkWorld (files w) (faults w)
            (trace w ++ [CloseBrowser; ConsoleLog "Processing complete."])).
Proof.
  intros Hk Hfile Hlines Hrows.
  cbn [run_schedule Details.step]. unfold Details.t in *. rewrite Hk, Hfile, Hlines.
  cbv zeta. rewrite Hrows. cbn [run_schedule Details.step length].
  unfold Details.t in *.
  rewrite list_lookup_insert_eq by (by apply lookup_lt_Some in Hk).
  cbn. rewrite list_insert_insert_eq, <- app_assoc. done.
Qed.



End FileLoop.

Lemma file_without_rows_completes_witness :
  run_schedule
    (Details.step (fun _ => one_review) (Some MAX_RETRIES) ["Term-One.csv"; "Term-Two.csv"])
    [Details.StreamEnd 1; Details.Finish 1]
    ([Details.Reading; Details.Reading], no_rows)
  = Some ([Details.Reading; Details.Complete],
          mkWorld (files no_rows) []
            [CloseBrowser; ConsoleLog "Processing complete."]).
Proof.
  exact (file_without_rows_completes (fun _ => one_review) (Some MAX_RETRIES)
           ["Term-One.csv"; "Term-Two.csv"] [Details.Reading; Details.Reading]
           no_rows 1 "Term-Two.csv" [Header SearchData.columns]
           eq_refl eq_refl eq_refl eq_refl).
Defined.

(** ** The further properties at sample inputs *)

Lemma window_loop_never_stuck_witness :
  exists l st,
    run_schedule (search_window first_page_down three_pages)
      [Window.Spawn; Window.Settle 0; Window.Resume]
      (Window.init 3, (DataPipeline.constructor "Term.csv" None, empty_world))
    = Some (l, st) /\
    (Window.finished three_pages l = true \/
     exists c s', search_window first_page_down three_pages c (l, st) = Some s').
Proof.
  eexists _, _. split; [vm_compute; reflexivity | ].
  eapply (window_loop_never_stuck
            (fun url => scrapeSearchResults (first_page_down url) url MAX_RETRIES)
            MAX_SEARCH_DATA_THREADS _ three_pages
            [Window.Spawn; Window.Settle 0; Window.Resume]
            _ (DataPipeline.constructor "Term.csv" None, empty_world)).
  vm_compute; reflexivity.
Defined.

Lemma window_loop_terminates_witness :
  0 < MAX_SEARCH_DATA_THREADS /\
  exists l st,
    run_schedule (search_window first_page_down three_pages)
      [Window.Spawn; Window.Settle 1; Window.Settle 0; Window.Resume;
       Window.Spawn; Window.Settle 2; Window.Resume]
      (Window.init 3, (DataPipeline.constructor "Term.csv" None, empty_world))
    = Some (l, st) /\
    Window.finished three_pages l = true /\
    length [Window.Spawn; Window.Settle 1; Window.Settle 0; Window.Resume;
            Window.Spawn; Window.Settle 2; Window.Resume]
    <= 3 * length three_pages.
Proof.
  split; [unfold MAX_SEARCH_DATA_THREADS; lia | ].
  eexists _, _. split; [vm_compute; reflexivity | ].
  split; [reflexivity | ].
  refine (window_loop_terminates
            (fun url => scrapeSearchResults (first_page_down url) url MAX_RETRIES)
            MAX_SEARCH_DATA_THREADS
            (fun error =>
               in_world (emit (ConsoleError ("Error scraping search results: " +:+ error))))
            three_pages _ _
            (DataPipeline.constructor "Term.csv" None, empty_world) _ _ _).
  - unfold MAX_SEARCH_DATA_THREADS; lia.
  - vm_compute; reflexivity.
Defined.

Lemma window_of_zero_spins_witness :
  three_pages <> [] /\
  run_schedule
    (Window.step (fun row => processListing one_review row (Some MAX_RETRIES)) 0
       (fun error => emit (ConsoleError ("Error processing row: " +:+ error)))
       [row_A; row_B])
    (spawn_resume 3) (Window.init 2, empty_world)
  = Some (Window.init 2, empty_world).
Proof.
  split; [discriminate | ].
  apply (window_of_zero_spins
           (fun row => processListing one_review row (Some MAX_RETRIES))
           (fun error => emit (ConsoleError ("Error processing row: " +:+ error)))
           [row_A; row_B] empty_world 3).
  discriminate.
Defined.



(** ** getScrapeOpsUrl: the query of the proxy URL *)

Lemma count_char_app (c : ascii) (s t : string) :
  count_char c (s +:+ t) = count_char c s + count_char c t.
Proof. induction s as [ | a s IH]; simpl; [done | ]. rewrite IH. lia. Qed.

Lemma urlencode_unit_safe (a : ascii) :
  all_chars query_safe (urlencode_unit a) = true.
Proof. destruct a as [[] [] [] [] [] [] [] []]; vm_compute; reflexivity. Qed.

Lemma urlencode_safe (s : string) : all_chars query_safe (urlencode s) = true.
Proof.
  induction s as [ | a s IH]; cbn [urlencode]; [done | ].
  by rewrite all_chars_app, urlencode_unit_safe, IH.
Qed.

Lemma count_char_unsafe (c : ascii) (s : string) :
  query_safe c = false -> all_chars query_safe s = true -> count_char c s = 0.
Proof.
  intros Hc. induction s as [ | a s IH]; cbn [all_chars count_char]; [done | ].
  intros [Ha Hs]%andb_true_iff. rewrite (IH Hs).
  destruct (decide (a = c)) as [-> | ]; [congruence | done].
Qed.

Lemma getScrapeOpsUrl_unfold (API_KEY url : string) (location : option string) :
  getScrapeOpsUrl API_KEY url location
  = "https://proxy.scrapeops.io/v1/?api_key=" +:+ urlencode API_KEY
    +:+ "&url=" +:+ urlencode url +:+ "&country=us&wait=5000".
Proof. reflexivity. Qed.

(** X23. Whatever the key and the target URL hold, the proxy URL has the
    four parameters [api_key], [url], [country] and [wait] and no other: the
    characters that would end or split a parameter are escaped, so the URL
    has one [?], three [&], four [=], no [#] and no space. *)
Theorem getScrapeOpsUrl_has_four_parameters (API_KEY url : string)
    (location : option string) :
  let proxied := getScrapeOpsUrl API_KEY url location in
  proxied
  = "https://proxy.scrapeops.io/v1/?api_key=" +:+ urlencode API_KEY
    +:+ "&url=" +:+ urlencode url +:+ "&country=us&wait=5000" /\
  count_char "?" proxied = 1 /\ count_char "&" proxied = 3 /\
  count_char "=" proxied = 4 /\ count_char "#" proxied = 0 /\
  count_char " " proxied = 0.
Proof.
  cbn zeta. rewrite getScrapeOpsUrl_unfold.
  split; [reflexivity | ].
  rewrite !count_char_app.
  pose proof (urlencode_safe API_KEY) as Hk. pose proof (urlencode_safe url) as Hu.
  rewrite !(count_char_unsafe _ (urlencode API_KEY)), !(count_char_unsafe _ (urlencode url))
    by done.
  repeat split; reflexivity.
Qed.

Lemma append_inj_l (s x y : string) : s +:+ x = s +:+ y -> x = y.
Proof. induction s as [ | a s IH]; simpl; [done | ]. intros [= H]. by apply IH. Qed.

Lemma length_append (s t : string) :
  String.length (s +:+ t) = String.length s + String.length t.
Proof. induction s as [ | a s IH]; simpl; [done | ]. by rewrite IH. Qed.

Lemma append_inj_r (t x y : string) : x +:+ t = y +:+ t -> x = y.
Proof.
  revert y. induction x as [ | a x IH]; intros [ | b y] H; simpl in H.
  - done.
  - apply (f_equal String.length) in H. rewrite !length_append in H.
    simpl in H. lia.
  - apply (f_equal String.length) in H. rewrite !length_append in H.
    simpl in H. lia.
  - injection H as -> H. f_equal. by apply IH.
Qed.

Lemma append_is_prefix (s1 s2 x y : string) :
  s1 +:+ x = s2 +:+ y -> is_prefix s1 s2 = true \/ is_prefix s2 s1 = true.
Proof.
  revert s2. induction s1 as [ | a s1 IH]; intros [ | b s2] H; cbn [is_prefix];
    [by left | by left | by right | ].
  simpl in H. injection H as -> H.
  rewrite bool_decide_eq_true_2 by done. cbn [andb]. by apply IH.
Qed.

Lemma all_units_complete (a : ascii) : In a all_units.
Proof.
  unfold all_units. rewrite <- (ascii_nat_embedding a). apply in_map, in_seq.
  pose proof (nat_ascii_bounded a). lia.
Qed.

(** No code unit is written as the beginning of what another is written
    as. *)
Lemma urlencode_unit_prefix_free (a b : ascii) :
  is_prefix (urlencode_unit a) (urlencode_unit b) = true -> a = b.
Proof.
  assert (forallb (fun a => forallb (fun b =>
            bool_decide (a = b)
            || negb (is_prefix (urlencode_unit a) (urlencode_unit b))) all_units) all_units
          = true) as Hall by (vm_compute; reflexivity).
  intros Hp. rewrite forallb_forall in Hall. specialize (Hall a (all_units_complete a)).
  rewrite forallb_forall in Hall. specialize (Hall b (all_units_complete b)).
  rewrite Hp in Hall. cbn [negb] in Hall. rewrite orb_false_r in Hall.
  by apply bool_decide_eq_true in Hall.
Qed.

Lemma urlencode_unit_nonempty (a : ascii) : urlencode_unit a <> "".
Proof. destruct a as [[] [] [] [] [] [] [] []]; vm_compute; discriminate. Qed.

Lemma urlencode_inj (s t : string) : urlencode s = urlencode t -> s = t.
Proof.
  revert t. induction s as [ | a s IH]; intros [ | b t] H; cbn [urlencode] in H.
  - done.
  - pose proof (urlencode_unit_nonempty b). destruct (urlencode_unit b); [done | discriminate H].
  - pose proof (urlencode_unit_nonempty a). destruct (urlencode_unit a); [done | discriminate H].
  - assert (a = b) as ->.
    { destruct (append_is_prefix _ _ _ _ H) as [Hp | Hp].
      - by apply urlencode_unit_prefix_free.
      - symmetry. by apply urlencode_unit_prefix_free. }
    apply append_inj_l in H. f_equal. by apply IH.
Qed.

(** X24. With one key, two calls give the same proxy URL exactly when their
    target URLs are the same: the serialization loses nothing of the target
    URL, and the argument [location] has no part in the result. *)
Theorem getScrapeOpsUrl_injective (API_KEY url1 url2 : string)
    (location1 location2 : option string) :
  getScrapeOpsUrl API_KEY url1 location1 = getScrapeOpsUrl API_KEY url2 location2
  <-> url1 = url2.
Proof.
  split; [ | by intros ->]. rewrite !getScrapeOpsUrl_unfold.
  intros H. do 3 apply append_inj_l in H. apply append_inj_r in H.
  by apply urlencode_inj.
Qed.

(** ** The search crawl of one term *)










(** ** The keyword loop *)

Lemma findPaginationUrls_returns (env : DiscoverEnv) (keyword : string)
    (pages : option Z) (w : World) :
  exists links w',
    findPaginationUrls env keyword pages w = (Ok links, w') /\
    files w' = files w /\ faults w' = faults w.
Proof.
  unfold findPaginationUrls, bind, try, emit, modify, raise_if, of_result, ret, throw.
  destruct env as [[error | ] [paginationLinks | error']]; cbn; by eexists _, _.
Qed.

Lemma scrapeSearchResults_down (env : PageEnv) (url : string)
    (retries : nat) (p : DataPipeline.t) (w : World) :
  (forall k, k <= retries -> fetch_fails env k = true) ->
  exists r w',
    scrapeSearchResults env url retries (p, w) = (r, (p, w')) /\
    files w' = files w /\ faults w' = faults w.
Proof.
  intros Hall.
  unfold scrapeSearchResults, bind, in_world, emit, modify. cbv beta iota zeta.
  destruct (scrape_while_target_down env url (S retries) 0 p
              (mkWorld (files w) (faults w) (trace w ++ [NewPage])))
    as (r & w' & E & Hr & Hf & Hfl).
  { intros k Hk. apply Hall. lia. }
  rewrite E. destruct r as [[ | ] | e]; [done | | ]; unfold ret, throw;
    cbv beta iota zeta; by eexists _, _.
Qed.

Lemma search_window_pages_down (penv : string -> PageEnv) (pageUrls : list string)
    (cs : list Window.choice) (l l' : Window.t) (p p' : DataPipeline.t) (w w' : World) :
  pages_down penv ->
  run_schedule (search_window penv pageUrls) cs (l, (p, w)) = Some (l', (p', w')) ->
  p' = p /\ files w' = files w /\ faults w' = faults w.
Proof.
  intros Hdown. revert l w. induction cs as [ | c cs IH]; intros l w Hrun;
    cbn [run_schedule] in Hrun.
  - injection Hrun as H1 H2 H3. by subst.
  - destruct (search_window penv pageUrls c (l, (p, w))) as [[l1 [p1 w1]] | ] eqn:Hstep;
      [ | done].
    assert (p1 = p /\ files w1 = files w /\ faults w1 = faults w) as (-> & Hf & Hfl).
    { clear IH Hrun.
      unfold search_window in Hstep. destruct c as [ | k | ]; cbn [Window.step] in Hstep.
      - destruct (negb (Window.awaiting l) && Nat.ltb (Window.i l) (length pageUrls));
          [ | done].
        injection Hstep as _ H2 H3. by subst.
      - destruct (pageUrls !! k) as [url | ]; [ | done].
        destruct (Window.tasks l !! k) as [[ | | | ] | ]; try done.
        destruct (scrapeSearchResults_down (penv url) url MAX_RETRIES p w (Hdown url))
          as (r & w2 & E & Hf & Hfl).
        rewrite E in Hstep. destruct r as [[] | e]; injection Hstep as _ H2 H3; by subst.
      - destruct (Window.awaiting l); [ | done].
        destruct (Window.rejection l) as [e | ].
        + unfold in_world, emit, modify in Hstep. cbv beta iota zeta in Hstep.
          injection Hstep as _ H2 H3. by subst.
        + destruct (Window.all_fulfilled MAX_SEARCH_DATA_THREADS l); [ | done].
          injection Hstep as _ H2 H3. by subst. }
    destruct (IH l1 w1 Hrun) as (-> & Hf' & Hfl'). split; [done | ]. split; congruence.
Qed.

(** X26. A term none of whose pages can be fetched still has its file
    queued for the detail crawl, although the crawl has written nothing:
    under every schedule that brings the loop to its end the file list
    gains the name of the term's file, and the files are what they were, so
    that a file that did not exist still does not. *)
Theorem keyword_without_rows_is_still_queued (denv : DiscoverEnv)
    (penv : string -> PageEnv) (keyword : string) (cs : list Window.choice)
    (aggregateFiles aggregateFiles' : list string) (w w' : World) :
  pages_down penv ->
  keyword_iteration denv penv keyword cs (aggregateFiles, w)
  = Some (aggregateFiles', w') ->
  aggregateFiles' = aggregateFiles ++ [search_filename keyword] /\
  files w' = files w.
Proof.
  intros Hdown Hrun. unfold keyword_iteration in Hrun.
  destruct (findPaginationUrls_returns denv keyword None w) as (links & w1 & E & Hf1 & _).
  rewrite E in Hrun.
  destruct (run_schedule (search_window penv links) cs
              (Window.init (length links),
               (DataPipeline.constructor (search_filename keyword) None, w1)))
    as [[l [p2 w2]] | ] eqn:Hloop; [ | done].
  destruct (search_window_pages_down penv links cs _ _ _ _ _ _ Hdown Hloop)
    as (-> & Hf2 & _).
  destruct (Window.finished links l); [ | done].
  rewrite closePipeline_unfold in Hrun.
  change (DataPipeline.saveToCsv (DataPipeline.constructor (search_filename keyword) None, w2))
    with (@Ok unit tt, (DataPipeline.constructor (search_filename keyword) None, w2)) in Hrun.
  injection Hrun as <- <-. split; [done | congruence].
Qed.

Lemma keyword_without_rows_is_still_queued_witness :
  pages_down (fun _ => always_timeout) /\
  exists w',
    keyword_iteration unreachable (fun _ => always_timeout) "Myrtle Beach, South Carolina"
      [Window.Spawn; Window.Settle 0; Window.Resume] ([], empty_world)
    = Some (["Myrtle-Beach-South-Carolina.csv"], w') /\
    files w' = files empty_world.
Proof.
  assert (pages_down (fun _ => always_timeout)) as Hdown by (intros url k _; reflexivity).
  split; [exact Hdown | ].
  eexists. split; [vm_compute; reflexivity | ].
  refine (proj2 (keyword_without_rows_is_still_queued unreachable
                   (fun _ => always_timeout) "Myrtle Beach, South Carolina"
                   [Window.Spawn; Window.Settle 0; Window.Resume]
                   [] _ empty_world _ Hdown _)).
  vm_compute; reflexivity.
Defined.

(** ** The file name of a term *)

Lemma replace_comma_space_word (rep s t : string) :
  one_word s = true ->
  replace_comma_space rep (s +:+ t) = s +:+ replace_comma_space rep t.
Proof.
  unfold one_word. induction s as [ | a s IH]; [done | ].
  cbn [all_chars]. intros [[Ha _]%andb_true_iff Hs]%andb_true_iff.
  apply negb_true_iff, bool_decide_eq_false in Ha.
  change (String a s +:+ t) with (String a (s +:+ t)).
  assert (forall r, replace_comma_space rep (String a r)
                    = String a (replace_comma_space rep r)) as ->.
  { intros [ | b r]; [done | ]. cbn [replace_comma_space].
    destruct (decide (a = ","%char /\ b = " "%char)) as [[? _] | _]; done. }
  by rewrite (IH Hs).
Qed.

Lemma replace_char_word (s t : string) :
  one_word s = true ->
  replace_char " " "-" (s +:+ t) = s +:+ replace_char " " "-" t.
Proof.
  unfold one_word. induction s as [ | a s IH]; [done | ].
  cbn [all_chars]. intros [[_ Ha]%andb_true_iff Hs]%andb_true_iff.
  apply negb_true_iff, bool_decide_eq_false in Ha.
  change (String a s +:+ t) with (String a (s +:+ t)). cbn [replace_char].
  destruct (decide (a = " "%char)); [done | ]. by rewrite (IH Hs).
Qed.

Lemma append_nil_r (s : string) : s +:+ "" = s.
Proof. induction s as [ | a s IH]; [done | ]. change (String a s +:+ "") with (String a (s +:+ "")). by rewrite IH. Qed.

(** X27. Two different terms can have the same file: when neither [s1] nor
    [s2] holds a comma or a space, the terms "[s1], [s2]" and "[s1] [s2]"
    both get the file "[s1]-[s2].csv", so their rows go to one file and
    that file is queued twice. *)
Theorem search_filename_collides (s1 s2 : string) :
  one_word s1 = true -> one_word s2 = true ->
  search_filename (s1 +:+ ", " +:+ s2) = (s1 +:+ "-" +:+ s2) +:+ ".csv" /\
  search_filename (s1 +:+ " " +:+ s2) = (s1 +:+ "-" +:+ s2) +:+ ".csv" /\
  s1 +:+ ", " +:+ s2 <> s1 +:+ " " +:+ s2.
Proof.
  intros H1 H2. unfold search_filename.
  assert (replace_comma_space "-" s2 = s2) as Hc.
  { rewrite <- (append_nil_r s2) at 1. by rewrite replace_comma_space_word, append_nil_r. }
  assert (replace_char " " "-" s2 = s2) as Hs.
  { rewrite <- (append_nil_r s2) at 1. by rewrite replace_char_word, append_nil_r. }
  split; [ | split].
  - rewrite replace_comma_space_word by done.
    change (replace_comma_space "-" (", " +:+ s2))
      with ("-" +:+ replace_comma_space "-" s2).
    rewrite Hc, replace_char_word by done.
    change (replace_char " " "-" ("-" +:+ s2)) with ("-" +:+ replace_char " " "-" s2).
    by rewrite Hs.
  - rewrite replace_comma_space_word by done.
    assert (replace_comma_space "-" (" " +:+ s2) = " " +:+ s2) as ->.
    { change (" " +:+ s2) with (String " " s2). rewrite <- Hc at 2.
      destruct s2 as [ | b s2]; [done | ]. cbn [replace_comma_space].
      destruct (decide (" "%char = ","%char /\ b = " "%char)) as [[? _] | _]; done. }
    rewrite replace_char_word by done.
    change (replace_char " " "-" (" " +:+ s2)) with ("-" +:+ replace_char " " "-" s2).
    by rewrite Hs.
  - intros H. apply append_inj_l in H. discriminate H.
Qed.

Lemma search_filename_collides_witness :
  search_filename "Paris, France" = "Paris-France.csv" /\
  search_filename "Paris France" = "Paris-France.csv".
Proof.
  destruct (search_filename_collides "Paris" "France" eq_refl eq_refl) as (H1 & H2 & _).
  split; [exact H1 | exact H2].
Defined.


Lemma search_window_runs_every_window_witness :
  exists l s',
    run_schedule (search_window first_page_down three_pages)
      [Window.Spawn; Window.Settle 0; Window.Resume; Window.Spawn; Window.Settle 2;
       Window.Resume]
      (Window.init 3, (DataPipeline.constructor "Term.csv" None, empty_world))
    = Some (l, s') /\
    Window.finished three_pages l = true /\
    Window.tasks l !! 1 = Some Window.Pending /\
    forall k, k < length three_pages -> Window.started l k.
Proof.
  eexists _, _. split; [vm_compute; reflexivity | ].
  split; [reflexivity | ]. split; [reflexivity | ].
  refine (search_window_runs_every_window first_page_down three_pages
            [Window.Spawn; Window.Settle 0; Window.Resume; Window.Spawn; Window.Settle 2;
             Window.Resume]
            (DataPipeline.constructor "Term.csv" None, empty_world) _ _ _ _).
  - vm_compute; reflexivity.
  - reflexivity.
Defined.
